(** * A shallow embedding of the vectorized execution core

    The development follows the C++ sources:
    - [vec/common/hash_table/hash_table.h]: the open-addressing [HashTable]
      with its [HashTableGrower] and the out-of-band zero slot;
    - [vec/columns/column_const.h], [column_vector.h], [column_decimal.cpp],
      [column_nullable.cpp] and [ColumnConst.cpp]: the column variants;
    - [vec/aggregate_functions/aggregate_function_null.h]: the null-skipping
      adapter of aggregate functions.

    Sizes and indices ([size_t]) are natural numbers, stored values are
    integers in the range of their C++ type, byte buffers are lists of
    integers in [0, 256). *)

From Stdlib Require Import ZArith List Lia Bool Arith.
From stdpp Require Import base list.

Set Default Proof Using "Type".
Local Open Scope nat_scope.

(** ** Outcomes of a call

    A C++ call returns, throws one of the named error codes, loops forever,
    or has no defined result (it reads outside a buffer, dereferences a
    null pointer or casts an object to a class it is not). *)

Inductive ErrorCode :=
| SIZES_OF_COLUMNS_DOESNT_MATCH
| PARAMETER_OUT_OF_BOUND
| NOT_IMPLEMENTED
| ILLEGAL_COLUMN
| LOGICAL_ERROR
| SIZES_OF_NESTED_COLUMNS_ARE_INCONSISTENT
| CANNOT_ALLOCATE_MEMORY.

Inductive Result (A : Type) :=
| Normal (a : A)
| Throw (e : ErrorCode)
| Diverge
| Undefined.

Arguments Normal {A} a.
Arguments Throw {A} e.
Arguments Diverge {A}.
Arguments Undefined {A}.

Definition bindR {A B} (r : Result A) (k : A -> Result B) : Result B :=
  match r with
  | Normal a => k a
  | Throw e => Throw e
  | Diverge => Diverge
  | Undefined => Undefined
  end.

Notation "'do' x <- r ; k" := (bindR r (fun x => k))
  (at level 10, x name, r at level 100, k at level 200).

(** * The hash table *)

Module HashTab.

(** [Key] is an integer key type; [ZeroTraits::check] is [x == 0]. *)
Abbreviation Key := Z (only parsing).

Definition isZero (x : Key) : bool := (x =? 0)%Z.

(** [HashTableCell<Key, Hash>]: the cell is its key. *)
Definition keyEquals (cell_key key_ : Key) : bool := (cell_key =? key_)%Z.

(** [HashTableGrower]. [size_degree] is a [UInt8] that stays below 64 as
    long as a buffer of [1ULL << size_degree] cells can be allocated. *)
Record Grower := { size_degree : nat }.

Definition bufSize (g : Grower) : nat := Nat.shiftl 1 (size_degree g).
Definition maxFill (g : Grower) : nat := Nat.shiftl 1 (size_degree g - 1).
Definition mask (g : Grower) : nat := bufSize g - 1.
Definition place (g : Grower) (x : nat) : nat := Nat.land x (mask g).
Definition next (g : Grower) (pos : nat) : nat := Nat.land (pos + 1) (mask g).
Definition overflow (g : Grower) (elems : nat) : bool := maxFill g <? elems.
Definition increaseSize (g : Grower) : Grower :=
  {| size_degree := size_degree g + (if 23 <=? size_degree g then 1 else 2) |}.

(** The table: element count, bucket array, grower, and the flag of
    [ZeroValueStorage<true, Cell>]. *)
Record HashTable := {
  m_size : nat;
  buf : list Key;
  grower : Grower;
  has_zero : bool
}.

(** [LookupResult] is a [Cell *]: null, the zero slot, or a bucket. *)
Inductive LookupResult :=
| nullptr
| zeroValue
| bufCell (i : nat).

(** [buf[i]]; reading past the buffer has no defined result. *)
Definition cellAt (b : list Key) (i : nat) : Result Key :=
  match b !! i with
  | Some c => Normal c
  | None => Undefined
  end.

(** Modelled from the spec: [Allocator::alloc] of the table's [Allocator]
    argument (allocator.h is not among the sources). It hands out zeroed
    memory; the header relies on it: "zero bytes is compared equals to zero
    key". *)
Definition Allocator_alloc (cells : nat) : list Key := replicate cells 0%Z.

(** Modelled from the spec: [Allocator::realloc] of the table's [Allocator]
    argument (allocator.h is not among the sources). It keeps the old cells
    and zeroes the new ones; an allocation that fails throws, and
    [alloc_ok] says whether this one succeeds. *)
Definition Allocator_realloc (alloc_ok : bool) (b : list Key) (new_cells : nat)
  : Result (list Key) :=
  if alloc_ok then Normal (b ++ replicate (new_cells - length b) 0%Z)
  else Throw CANNOT_ALLOCATE_MEMORY.

(** [HashTable()] for [HashTableGrower<initial_size_degree>]. *)
Definition HashTable_new (initial_size_degree : nat) : HashTable :=
  let g := {| size_degree := initial_size_degree |} in
  {| m_size := 0; buf := Allocator_alloc (bufSize g); grower := g; has_zero := false |}.

Definition size (t : HashTable) : nat := m_size t.

Section WithHash.

(** [Hash::operator()]. *)
Variable hash : Key -> nat.

(** [findCell]: the [while] loop runs until a cell is empty or holds [x].
    After [bufSize] steps the probe is back at its start, so running out of
    fuel is the loop that never ends. *)
Fixpoint findCell_loop (fuel : nat) (b : list Key) (g : Grower) (x : Key)
  (place_value : nat) : Result nat :=
  match fuel with
  | O => Diverge
  | S fuel' =>
      do c <- cellAt b place_value ;
      if negb (isZero c) && negb (keyEquals c x)
      then findCell_loop fuel' b g x (next g place_value)
      else Normal place_value
  end.

Definition findCell (b : list Key) (g : Grower) (x : Key) (place_value : nat)
  : Result nat :=
  findCell_loop (bufSize g) b g x place_value.

(** [reinsert(Cell & x, hash_value)] with [x = buf[i]]. *)
Definition reinsert (b : list Key) (g : Grower) (i : nat) (hash_value : nat)
  : Result (list Key) :=
  let place_value := place g hash_value in
  if place_value =? i then Normal b
  else
    do x <- cellAt b i ;
    do place_value <- findCell b g x place_value ;
    do c <- cellAt b place_value ;
    if negb (isZero c) then Normal b
    else Normal (<[i := 0%Z]> (<[place_value := x]> b)).

(** First loop of [resize]: [for (; i < old_size; ++i)]. *)
Fixpoint resize_pass1 (n : nat) (i : nat) (b : list Key) (g : Grower)
  : Result (list Key) :=
  match n with
  | O => Normal b
  | S n' =>
      do c <- cellAt b i ;
      do b' <- (if negb (isZero c) then reinsert b g i (hash c) else Normal b) ;
      resize_pass1 n' (S i) b' g
  end.

(** Second loop of [resize]: [for (; !buf[i].isZero(); ++i)]. At most
    [bufSize] cells are read before the index leaves the buffer. *)
Fixpoint resize_tail (fuel : nat) (i : nat) (b : list Key) (g : Grower)
  : Result (list Key) :=
  match fuel with
  | O => Undefined
  | S fuel' =>
      do c <- cellAt b i ;
      if negb (isZero c)
      then do b' <- reinsert b g i (hash c) ; resize_tail fuel' (S i) b' g
      else Normal b
  end.

(** [resize()] as [emplace] calls it, without arguments. *)
Definition resize (alloc_ok : bool) (t : HashTable) : Result HashTable :=
  let old_size := bufSize (grower t) in
  let new_grower := increaseSize (grower t) in
  do b <- Allocator_realloc alloc_ok (buf t) (bufSize new_grower) ;
  do b <- resize_pass1 old_size 0 b new_grower ;
  do b <- resize_tail (S (bufSize new_grower)) old_size b new_grower ;
  Normal {| m_size := m_size t; buf := b; grower := new_grower;
            has_zero := has_zero t |}.

(** The out-parameters of [emplace]. *)
Record Emplaced := {
  table : HashTable;
  it : LookupResult;
  inserted : bool
}.

(** [emplaceIfZero]: [None] is the [return false]. *)
Definition emplaceIfZero (x : Key) (t : HashTable) : option Emplaced :=
  if isZero x then
    if negb (has_zero t)
    then Some {| table := {| m_size := S (m_size t); buf := buf t;
                             grower := grower t; has_zero := true |};
                 it := zeroValue; inserted := true |}
    else Some {| table := t; it := zeroValue; inserted := false |}
  else None.

(** What [catch (...)] of [emplaceNonZeroImpl] does before it rethrows. *)
Definition rollback (t : HashTable) (place_value : nat) : HashTable :=
  {| m_size := m_size t - 1; buf := <[place_value := 0%Z]> (buf t);
     grower := grower t; has_zero := has_zero t |}.

(** A throwing call: the exception together with the table it leaves. *)
Inductive Emplace_outcome :=
| Returned (r : Emplaced)
| Threw (e : ErrorCode) (left : HashTable)
| NoResult.

Definition emplaceNonZeroImpl (alloc_ok : bool) (place_value : nat) (key : Key)
  (t : HashTable) (hash_value : nat) : Emplace_outcome :=
  match cellAt (buf t) place_value with
  | Normal c =>
      if negb (isZero c)
      then Returned {| table := t; it := bufCell place_value; inserted := false |}
      else
        let t1 := {| m_size := S (m_size t); buf := <[place_value := key]> (buf t);
                     grower := grower t; has_zero := has_zero t |} in
        if overflow (grower t1) (m_size t1) then
          match resize alloc_ok t1 with
          | Normal t2 =>
              match findCell (buf t2) (grower t2) key (place (grower t2) hash_value) with
              | Normal new_place =>
                  Returned {| table := t2; it := bufCell new_place; inserted := true |}
              | _ => NoResult
              end
          | Throw e => Threw e (rollback t1 place_value)
          | _ => NoResult
          end
        else Returned {| table := t1; it := bufCell place_value; inserted := true |}
  | _ => NoResult
  end.

Definition emplaceNonZero (alloc_ok : bool) (key : Key) (t : HashTable)
  (hash_value : nat) : Emplace_outcome :=
  match findCell (buf t) (grower t) key (place (grower t) hash_value) with
  | Normal place_value => emplaceNonZeroImpl alloc_ok place_value key t hash_value
  | _ => NoResult
  end.

(** [emplace(key_holder, it, inserted)]. *)
Definition emplace (alloc_ok : bool) (key : Key) (t : HashTable) : Emplace_outcome :=
  let hash_value := hash key in
  match emplaceIfZero key t with
  | Some r => Returned r
  | None => emplaceNonZero alloc_ok key t hash_value
  end.

(** [find(Key x)]. *)
Definition find (t : HashTable) (x : Key) : Result LookupResult :=
  if isZero x then Normal (if has_zero t then zeroValue else nullptr)
  else
    let hash_value := hash x in
    do place_value <- findCell (buf t) (grower t) x (place (grower t) hash_value) ;
    do c <- cellAt (buf t) place_value ;
    Normal (if negb (isZero c) then bufCell place_value else nullptr).

(** [lookupResultGetKey]: the key the result points to. The zero slot holds
    the zero key, set by the constructor. *)
Definition lookupResultGetKey (t : HashTable) (r : LookupResult) : option Key :=
  match r with
  | nullptr => None
  | zeroValue => Some 0%Z
  | bufCell i => buf t !! i
  end.

(** A run of [emplace] calls in which every allocation succeeds. *)
Fixpoint emplace_all (keys : list Key) (t : HashTable) : option HashTable :=
  match keys with
  | [] => Some t
  | k :: keys' =>
      match emplace true k t with
      | Returned r => emplace_all keys' (table r)
      | _ => None
      end
  end.

(** ** The other caller of [resize] *)

(** [findEmptyCell]: the [while] loop runs until a cell is empty; as in
    [findCell], after [bufSize] steps the probe is back at its start. *)
Fixpoint findEmptyCell_loop (fuel : nat) (b : list Key) (g : Grower)
  (place_value : nat) : Result nat :=
  match fuel with
  | O => Diverge
  | S fuel' =>
      do c <- cellAt b place_value ;
      if negb (isZero c)
      then findEmptyCell_loop fuel' b g (next g place_value)
      else Normal place_value
  end.

Definition findEmptyCell (b : list Key) (g : Grower) (place_value : nat) : Result nat :=
  findEmptyCell_loop (bufSize g) b g place_value.

(** A call that returns nothing: the table it leaves, also when it
    throws. *)
Inductive Insert_outcome :=
| Inserted (t : HashTable)
| InsertThrew (e : ErrorCode) (left : HashTable)
| InsertNoResult.

(** [insertUniqueNonZero(cell, hash_value)]: copies the cell into the first
    empty cell of its probe and counts it; [resize()] is called without a
    handler, so that its exception leaves the table as it is then: [resize]
    throws where it reallocates, before it changes the buffer or the
    grower. *)
Definition insertUniqueNonZero (alloc_ok : bool) (cell : Key) (hash_value : nat)
  (t : HashTable) : Insert_outcome :=
  match findEmptyCell (buf t) (grower t) (place (grower t) hash_value) with
  | Normal place_value =>
      let t1 := {| m_size := S (m_size t); buf := <[place_value := cell]> (buf t);
                   grower := grower t; has_zero := has_zero t |} in
      if overflow (grower t1) (m_size t1) then
        match resize alloc_ok t1 with
        | Normal t2 => Inserted t2
        | Throw e => InsertThrew e t1
        | _ => InsertNoResult
        end
      else Inserted t1
  | _ => InsertNoResult
  end.

End WithHash.

End HashTab.

(** * The columns *)

Module Columns.

Local Open Scope Z_scope.

(** ** Element types and raw bytes

    [T] of [ColumnVector<T>] and [ColumnDecimal<T>] is an integer type of
    [sizeofT] bytes ([Decimal32/64/128] store an [Int32/64/128]). A byte is
    an integer in [0, 256); [memcpy] of a value writes its two's-complement
    representation, least significant byte first. *)

Record NumT := { sizeofT : nat; signedT : bool }.

Definition UInt8T : NumT := {| sizeofT := 1; signedT := false |}.
Definition UInt64T : NumT := {| sizeofT := 8; signedT := false |}.
Definition Int32T : NumT := {| sizeofT := 4; signedT := true |}.
Definition Int64T : NumT := {| sizeofT := 8; signedT := true |}.
Definition Int128T : NumT := {| sizeofT := 16; signedT := true |}.

Definition bitsT (T : NumT) : Z := 8 * Z.of_nat (sizeofT T).

Definition inRangeT (T : NumT) (v : Z) : Prop :=
  if signedT T then - 2 ^ (bitsT T - 1) <= v < 2 ^ (bitsT T - 1)
  else 0 <= v < 2 ^ bitsT T.

(** Conversion of an integer to [T]. *)
Definition castT (T : NumT) (v : Z) : Z :=
  let u := v mod 2 ^ bitsT T in
  if signedT T && (2 ^ (bitsT T - 1) <=? u) then u - 2 ^ bitsT T else u.

Fixpoint storeBytes (n : nat) (v : Z) : list Z :=
  match n with
  | O => []
  | S n' => v mod 256 :: storeBytes n' (v / 256)
  end.

Fixpoint loadBytes (bs : list Z) : Z :=
  match bs with
  | [] => 0
  | b :: bs' => b + 256 * loadBytes bs'
  end.

(** Modelled from the spec: [unalignedLoad<T>(pos)] of vec/common/unaligned.h,
    a header that is not among the sources. It reads a [T] from the
    [sizeof(T)] bytes at [pos], as the [memcpy] calls of column_decimal.cpp
    do; fewer bytes than that at the cursor is a read out of bounds. *)
Definition unalignedLoad (T : NumT) (pos : list Z) : Result Z :=
  if (length pos <? sizeofT T)%nat then Undefined
  else Normal (castT T (loadBytes (take (sizeofT T) pos))).

(** [size_t] arithmetic wraps at [2^64]. *)
Definition wrap64 (z : Z) : Z := z mod 2 ^ 64.

(** ** Fields and columns *)

Inductive Field :=
| Null
| NumField (v : Z)
| DecimalField (v : Z) (scale : nat).

Definition isNull (x : Field) : bool :=
  match x with Null => true | _ => false end.

(** The closed set of column classes. [ColumnNullable] holds its null map
    ([ColumnUInt8]) as the byte array [getNullMapData()] gives. *)
Inductive IColumn :=
| ColumnVector (T : NumT) (data : list Z)
| ColumnDecimal (T : NumT) (scale : nat) (data : list Z)
| ColumnConst (data : IColumn) (s : Z)
| ColumnNullable (nested_column : IColumn) (null_map : list Z).

(** [data[n]] of a [PaddedPODArray]. *)
Definition at_ (data : list Z) (n : nat) : Z := nth n data 0.

(** ** Members whose bodies are outside the sources

    The sources hold column_const.h, ColumnConst.cpp, column_vector.h,
    column_decimal.cpp and column_nullable.cpp. The bodies that live in
    column.h, column_decimal.h, column_nullable.h, column_vector.cpp and
    columns_common.cpp are written here, one definition each, on the value
    array of the column. *)

(** Modelled from the spec: [IColumn::isNullAt] of column.h, the default a
    column keeps unless it overrides it: no row is null. *)
Definition IColumn_isNullAt (n : nat) : bool := false.

(** Modelled from the spec: [IColumn::canBeInsideNullable] of column.h, the
    default a column keeps unless it overrides it. *)
Definition IColumn_canBeInsideNullable : bool := false.

(** Modelled from the spec: [IColumn::convertToFullColumnIfConst] of
    column.h: a column that is not constant is returned as it is. *)
Definition IColumn_convertToFullColumnIfConst (c : IColumn) : Result IColumn :=
  Normal c.

(** Modelled from the spec: [ColumnDecimal<T>::size] of column_decimal.h,
    the length of the value array. *)
Definition ColumnDecimal_size (data : list Z) : Z := Z.of_nat (length data).

(** Modelled from the spec: [ColumnDecimal<T>::operator[]] of
    column_decimal.h: the raw value with the scale of the column. *)
Definition ColumnDecimal_index (scale : nat) (data : list Z) (n : nat) : Field :=
  DecimalField (at_ data n) scale.

(** Modelled from the spec: [ColumnDecimal<T>::get] of column_decimal.h:
    stores [operator[]] in [res]. *)
Definition ColumnDecimal_get (scale : nat) (data : list Z) (n : nat) : Field :=
  ColumnDecimal_index scale data n.

(** Modelled from the spec: [ColumnDecimal<T>::byteSize] of
    column_decimal.h. *)
Definition ColumnDecimal_byteSize (T : NumT) (data : list Z) : Z :=
  Z.of_nat (length data) * Z.of_nat (sizeofT T).

(** Modelled from the spec: [ColumnDecimal<T>::insertDefault] of
    column_decimal.h: appends the default value [T()]. *)
Definition ColumnDecimal_insertDefault (data : list Z) : list Z := data ++ [0].

(** Modelled from the spec: [ColumnDecimal<T>::popBack] of column_decimal.h:
    drops the last [n] values. *)
Definition ColumnDecimal_popBack (data : list Z) (n : nat) : list Z :=
  take (length data - n) data.

(** Modelled from the spec: [ColumnDecimal<T>::insert] of column_decimal.h:
    appends the raw value of a decimal field. *)
Definition ColumnDecimal_insert (data : list Z) (x : Field) : Result (list Z) :=
  match x with
  | DecimalField v _ => Normal (data ++ [v])
  | _ => Undefined
  end.

(** Modelled from the spec: [ColumnDecimal<T>::insertFrom] of
    column_decimal.h: appends value [n] of the source array. *)
Definition ColumnDecimal_insertFrom (data src_data : list Z) (n : nat) : list Z :=
  data ++ [at_ src_data n].

(** Modelled from the spec: [ColumnDecimal<T>::canBeInsideNullable] of
    column_decimal.h. *)
Definition ColumnDecimal_canBeInsideNullable : bool := true.

(** Modelled from the spec: [ColumnNullable::size] of column_nullable.h:
    the row count of the nested column. *)
Definition ColumnNullable_size (nested_size : Z) : Z := nested_size.

(** Modelled from the spec: [ColumnNullable::isNullAt] of column_nullable.h:
    a row is null when its null-map byte is nonzero. *)
Definition ColumnNullable_isNullAt (null_map : list Z) (n : nat) : bool :=
  negb (at_ null_map n =? 0).

(** Modelled from the spec: [ColumnNullable::insertDefault] of
    column_nullable.h, given the nested column after its own
    [insertDefault]: the appended row is null. *)
Definition ColumnNullable_insertDefault (nested_inserted : IColumn) (null_map : list Z)
  : IColumn :=
  ColumnNullable nested_inserted (null_map ++ [1]).

(** Modelled from the spec: [ColumnVector<T>::insertRangeFrom] of
    column_vector.cpp, on the value arrays: the same bounds check and copy
    as [ColumnDecimal<T>::insertRangeFrom]. *)
Definition ColumnVector_insertRangeFrom (data src_data : list Z) (start length : Z)
  : Result (list Z) :=
  if Z.of_nat (List.length src_data) <? wrap64 (start + length)
  then Throw PARAMETER_OUT_OF_BOUND
  else Normal (data ++ take (Z.to_nat length) (drop (Z.to_nat start) src_data)).

(** Modelled from the spec: [ColumnVector<T>::serializeValueIntoArena] of
    column_vector.cpp: the [sizeof(T)] bytes of value [n]. *)
Definition ColumnVector_serializeValueIntoArena (T : NumT) (data : list Z) (n : nat)
  : Result (list Z) :=
  if (n <? length data)%nat then Normal (storeBytes (sizeofT T) (at_ data n))
  else Undefined.

(** Modelled from the spec: [ColumnVector<T>::deserializeAndInsertFromArena]
    of column_vector.cpp: appends the value read at [pos] and gives the
    memory [sizeof(T)] bytes further. *)
Definition ColumnVector_deserializeAndInsertFromArena (T : NumT) (data pos : list Z)
  : Result (list Z * list Z) :=
  do v <- unalignedLoad T pos ;
  Normal (data ++ [v], drop (sizeofT T) pos).

(** ** The virtual members, dispatched on the class of the column *)

(** [size()]. *)
Fixpoint size (c : IColumn) : Z :=
  match c with
  | ColumnVector _ data => Z.of_nat (length data)
  | ColumnDecimal _ _ data => ColumnDecimal_size data
  | ColumnConst _ s => s
  | ColumnNullable nested_column _ => ColumnNullable_size (size nested_column)
  end.

(** [isNullAt(n)]: [ColumnConst] asks row 0 of its data. *)
Fixpoint isNullAt (c : IColumn) (n : nat) : bool :=
  match c with
  | ColumnVector _ _ => IColumn_isNullAt n
  | ColumnDecimal _ _ _ => IColumn_isNullAt n
  | ColumnConst data _ => isNullAt data 0
  | ColumnNullable _ null_map => ColumnNullable_isNullAt null_map n
  end.

(** [operator[](n)]. *)
Fixpoint index (c : IColumn) (n : nat) : Field :=
  match c with
  | ColumnVector _ data => NumField (at_ data n)
  | ColumnDecimal _ scale data => ColumnDecimal_index scale data n
  | ColumnConst data _ => index data 0
  | ColumnNullable nested_column _ =>
      if isNullAt c n then Null else index nested_column n
  end.

(** [get(n, res)], the value stored in [res]: [ColumnVector] stores
    [operator[]], [ColumnConst] asks row 0 of its data, [ColumnNullable]
    stores Null for a null row and asks the nested column otherwise. *)
Fixpoint get (c : IColumn) (n : nat) : Field :=
  match c with
  | ColumnVector _ _ => index c n
  | ColumnDecimal _ scale data => ColumnDecimal_get scale data n
  | ColumnConst data _ => get data 0
  | ColumnNullable nested_column _ =>
      if isNullAt c n then Null else get nested_column n
  end.

(** The logical content of a column, row by row. *)
Definition rows (c : IColumn) : list Field :=
  map (index c) (seq 0 (Z.to_nat (size c))).

(** [byteSize()]. *)
Fixpoint byteSize (c : IColumn) : Z :=
  match c with
  | ColumnVector T data => Z.of_nat (length data) * Z.of_nat (sizeofT T)
  | ColumnDecimal T _ data => ColumnDecimal_byteSize T data
  | ColumnConst data _ => byteSize data + 8
  | ColumnNullable nested_column null_map =>
      byteSize nested_column + Z.of_nat (length null_map) * 1
  end.

(** [insertDefault()]: [data.push_back(T())] in [ColumnVector]. *)
Fixpoint insertDefault (c : IColumn) : IColumn :=
  match c with
  | ColumnVector T data => ColumnVector T (data ++ [0])
  | ColumnDecimal T scale data => ColumnDecimal T scale (ColumnDecimal_insertDefault data)
  | ColumnConst data s => ColumnConst data (wrap64 (s + 1))
  | ColumnNullable nested_column null_map =>
      ColumnNullable_insertDefault (insertDefault nested_column) null_map
  end.

(** [popBack(n)]. *)
Fixpoint popBack (c : IColumn) (n : nat) : IColumn :=
  match c with
  | ColumnVector T data => ColumnVector T (take (length data - n) data)
  | ColumnDecimal T scale data => ColumnDecimal T scale (ColumnDecimal_popBack data n)
  | ColumnConst data s => ColumnConst data (wrap64 (s - Z.of_nat n))
  | ColumnNullable nested_column null_map =>
      ColumnNullable (popBack nested_column n) (take (length null_map - n) null_map)
  end.

(** [insertData(pos, length)]; [None] is the null pointer. *)
Fixpoint insertData (c : IColumn) (pos : option (list Z)) (length : Z)
  : Result IColumn :=
  match c with
  | ColumnVector T data =>
      match pos with
      | None => Undefined
      | Some bytes => do v <- unalignedLoad T bytes ; Normal (ColumnVector T (data ++ [v]))
      end
  | ColumnDecimal T scale data =>
      match pos with
      | None => Undefined
      | Some bytes =>
          do tmp <- unalignedLoad T bytes ; Normal (ColumnDecimal T scale (data ++ [tmp]))
      end
  | ColumnConst data s => Normal (ColumnConst data (wrap64 (s + 1)))
  | ColumnNullable nested_column null_map =>
      match pos with
      | None => Normal (ColumnNullable (insertDefault nested_column) (null_map ++ [1]))
      | Some _ =>
          do nested <- insertData nested_column pos length ;
          Normal (ColumnNullable nested (null_map ++ [0]))
      end
  end.

(** [insert(const Field & x)]. [ColumnVector] reads the field as a number
    and converts it to [T]. *)
Fixpoint insert (c : IColumn) (x : Field) : Result IColumn :=
  match c with
  | ColumnVector T data =>
      match x with
      | NumField v => Normal (ColumnVector T (data ++ [castT T v]))
      | _ => Undefined
      end
  | ColumnDecimal T scale data =>
      do inserted <- ColumnDecimal_insert data x ;
      Normal (ColumnDecimal T scale inserted)
  | ColumnConst data s => Normal (ColumnConst data (wrap64 (s + 1)))
  | ColumnNullable nested_column null_map =>
      if isNull x
      then Normal (ColumnNullable (insertDefault nested_column) (null_map ++ [1]))
      else
        do nested <- insert nested_column x ;
        Normal (ColumnNullable nested (null_map ++ [0]))
  end.

(** [insertFrom(src, n)]: copies row [n] of a column of the same class. *)
Fixpoint insertFrom (c src : IColumn) (n : nat) : Result IColumn :=
  match c with
  | ColumnVector T data =>
      match src with
      | ColumnVector _ src_data => Normal (ColumnVector T (data ++ [at_ src_data n]))
      | _ => Undefined
      end
  | ColumnDecimal T scale data =>
      match src with
      | ColumnDecimal _ _ src_data =>
          Normal (ColumnDecimal T scale (ColumnDecimal_insertFrom data src_data n))
      | _ => Undefined
      end
  | ColumnConst data s => Normal (ColumnConst data (wrap64 (s + 1)))
  | ColumnNullable nested_column null_map =>
      match src with
      | ColumnNullable src_nested src_null_map =>
          do nested <- insertFrom nested_column src_nested n ;
          Normal (ColumnNullable nested (null_map ++ [at_ src_null_map n]))
      | _ => Undefined
      end
  end.

(** [insertRangeFrom(src, start, length)]. *)
Fixpoint insertRangeFrom (c src : IColumn) (start length : Z) : Result IColumn :=
  let range (src_data : list Z) :=
    take (Z.to_nat length) (drop (Z.to_nat start) src_data) in
  match c with
  | ColumnVector T data =>
      match src with
      | ColumnVector _ src_data =>
          do inserted <- ColumnVector_insertRangeFrom data src_data start length ;
          Normal (ColumnVector T inserted)
      | _ => Undefined
      end
  | ColumnDecimal T scale data =>
      match src with
      | ColumnDecimal _ _ src_data =>
          if Z.of_nat (List.length src_data) <? wrap64 (start + length)
          then Throw PARAMETER_OUT_OF_BOUND
          else Normal (ColumnDecimal T scale (data ++ range src_data))
      | _ => Undefined
      end
  | ColumnConst data s => Normal (ColumnConst data (wrap64 (s + length)))
  | ColumnNullable nested_column null_map =>
      match src with
      | ColumnNullable src_nested src_null_map =>
          do inserted_null_map <-
            ColumnVector_insertRangeFrom null_map src_null_map start length ;
          do nested <- insertRangeFrom nested_column src_nested start length ;
          Normal (ColumnNullable nested inserted_null_map)
      | _ => Undefined
      end
  end.

(** ** Serialization into an arena

    [serializeValueIntoArena(n, arena, begin)] returns the [StringRef] of the
    bytes it appended to the arena's current allocation; the model gives
    these bytes. *)
Fixpoint serializeValueIntoArena (c : IColumn) (n : nat) : Result (list Z) :=
  match c with
  | ColumnVector T data => ColumnVector_serializeValueIntoArena T data n
  | ColumnDecimal T _ data =>
      if (n <? length data)%nat then Normal (storeBytes (sizeofT T) (at_ data n))
      else Undefined
  | ColumnConst data _ => serializeValueIntoArena data 0
  | ColumnNullable nested_column null_map =>
      if (n <? length null_map)%nat then
        let arr_n := at_ null_map n in
        if negb (arr_n =? 0) then Normal [arr_n]
        else
          do nested_ref <- serializeValueIntoArena nested_column n ;
          Normal (arr_n :: nested_ref)
      else Undefined
  end.

(** [deserializeAndInsertFromArena(pos)]: the memory at [pos] is the list
    of bytes from the cursor on; the result is the column after the insert
    and the memory at the returned cursor. *)
Fixpoint deserializeAndInsertFromArena (c : IColumn) (pos : list Z)
  : Result (IColumn * list Z) :=
  match c with
  | ColumnVector T data =>
      do res <- ColumnVector_deserializeAndInsertFromArena T data pos ;
      Normal (ColumnVector T (fst res), snd res)
  | ColumnDecimal T scale data =>
      do v <- unalignedLoad T pos ;
      Normal (ColumnDecimal T scale (data ++ [v]), drop (sizeofT T) pos)
  | ColumnConst data s =>
      do res <- deserializeAndInsertFromArena data pos ;
      Normal (ColumnConst (popBack (fst res) 1) (wrap64 (s + 1)), snd res)
  | ColumnNullable nested_column null_map =>
      match pos with
      | [] => Undefined
      | val :: pos' =>
          if val =? 0 then
            do res <- deserializeAndInsertFromArena nested_column pos' ;
            Normal (ColumnNullable (fst res) (null_map ++ [val]), snd res)
          else
            Normal (ColumnNullable (insertDefault nested_column) (null_map ++ [val]), pos')
      end
  end.

(** ** Construction *)

(** [ColumnConst::create(data, s)]: the constructor squashes a const of a
    const and rejects a wrapped column whose size is not 1. *)
Fixpoint ColumnConst_create (data : IColumn) (s : Z) : Result IColumn :=
  match data with
  | ColumnConst const_data _ => ColumnConst_create const_data s
  | _ =>
      if size data =? 1 then Normal (ColumnConst data s)
      else Throw SIZES_OF_COLUMNS_DOESNT_MATCH
  end.

(** [canBeInsideNullable()]. *)
Definition canBeInsideNullable (c : IColumn) : bool :=
  match c with
  | ColumnVector _ _ => true
  | ColumnDecimal _ _ _ => ColumnDecimal_canBeInsideNullable
  | _ => IColumn_canBeInsideNullable
  end.

(** The inner loop of [ColumnDecimal<T>::replicate]:
    [offsets[i] - prev_offset] copies of [data[i]] for each row. *)
Fixpoint replicate_loop (data offsets : list Z) (prev_offset : Z) : list Z :=
  match data, offsets with
  | x :: data', o :: offsets' =>
      replicate (Z.to_nat (wrap64 (o - prev_offset))) x ++ replicate_loop data' offsets' o
  | _, _ => []
  end.

(** Modelled from the spec: [ColumnVector<T>::replicate] of
    column_vector.cpp, on the value array: the size check and the loop of
    [ColumnDecimal<T>::replicate]. *)
Definition ColumnVector_replicate (data offsets : list Z) : Result (list Z) :=
  if (length data =? length offsets)%nat
  then Normal (replicate_loop data offsets 0)
  else Throw SIZES_OF_COLUMNS_DOESNT_MATCH.

(** The constructor of [ColumnNullable], behind
    [ColumnNullable::create(nested_column, null_map)]: it materializes a
    constant nested column and rejects a nested column that cannot be inside
    a nullable one. The null map is a full [ColumnUInt8] here, never a
    constant. [convert] is [convertToFullColumnIfConst]. *)
Definition ColumnNullable_ctor (convert : IColumn -> Result IColumn)
    (nested_column : IColumn) (null_map : list Z) : Result IColumn :=
  do nested <- convert nested_column ;
  if negb (canBeInsideNullable nested) then Throw ILLEGAL_COLUMN
  else Normal (ColumnNullable nested null_map).

(** How deep a column wraps other columns. *)
Fixpoint depth (c : IColumn) : nat :=
  match c with
  | ColumnVector _ _ => 0
  | ColumnDecimal _ _ _ => 0
  | ColumnConst data _ => S (depth data)
  | ColumnNullable nested_column _ => S (depth nested_column)
  end.

(** [replicate(offsets)]. [ColumnNullable::replicate] replicates the nested
    column and the null map and builds the result with the constructor,
    which calls [convertToFullColumnIfConst], that is [replicate] again on
    the data of a constant: the recursion is not on a part of the column
    and is bounded by [fuel], which [replicate_] sets above the depth of the
    column ([replicate_rec_terminates]). *)
Fixpoint replicate_rec (fuel : nat) (c : IColumn) (offsets : list Z) : Result IColumn :=
  match fuel with
  | O => Diverge
  | S fuel' =>
      let convertToFullColumnIfConst (col : IColumn) :=
        match col with
        | ColumnConst data s => replicate_rec fuel' data [s]
        | _ => IColumn_convertToFullColumnIfConst col
        end in
      match c with
      | ColumnVector T data =>
          do replicated <- ColumnVector_replicate data offsets ;
          Normal (ColumnVector T replicated)
      | ColumnDecimal T scale data =>
          if (length data =? length offsets)%nat
          then Normal (ColumnDecimal T scale (replicate_loop data offsets 0))
          else Throw SIZES_OF_COLUMNS_DOESNT_MATCH
      | ColumnConst data s =>
          if s =? Z.of_nat (length offsets)
          then ColumnConst_create data (if s =? 0 then 0 else List.last offsets 0)
          else Throw SIZES_OF_COLUMNS_DOESNT_MATCH
      | ColumnNullable nested_column null_map =>
          do replicated_data <- replicate_rec fuel' nested_column offsets ;
          do replicated_null_map <- ColumnVector_replicate null_map offsets ;
          ColumnNullable_ctor convertToFullColumnIfConst replicated_data replicated_null_map
      end
  end.

Definition replicate_ (c : IColumn) (offsets : list Z) : Result IColumn :=
  replicate_rec (S (depth c)) c offsets.

(** [convertToFullColumnIfConst()]; [ColumnConst::convertToFullColumn] is
    [data->replicate(Offsets(1, s))]. *)
Definition convertToFullColumnIfConst (c : IColumn) : Result IColumn :=
  match c with
  | ColumnConst data s => replicate_ data [s]
  | _ => IColumn_convertToFullColumnIfConst c
  end.

(** [ColumnNullable::create(nested_column, null_map)]. *)
Definition ColumnNullable_create (nested_column : IColumn) (null_map : list Z)
  : Result IColumn :=
  ColumnNullable_ctor convertToFullColumnIfConst nested_column null_map.

(** ** Filtering *)

(** Modelled from the spec: [countBytesInFilter(filt)] of
    columns_common.cpp: the number of nonzero bytes of the mask. *)
Fixpoint countBytesInFilter (filt : list Z) : Z :=
  match filt with
  | [] => 0
  | f :: filt' => (if f =? 0 then 0 else 1) + countBytesInFilter filt'
  end.

(** The loop of [ColumnDecimal<T>::filter]: walks the mask and the values
    together and keeps the values whose mask byte is nonzero. *)
Fixpoint filter_loop {A} (filt : list Z) (data : list A) : list A :=
  match filt, data with
  | f :: filt', x :: data' =>
      if negb (f =? 0) then x :: filter_loop filt' data' else filter_loop filt' data'
  | _, _ => []
  end.

(** Modelled from the spec: [ColumnVector<T>::filter] of column_vector.cpp,
    on the value array: a mask of another size is a size mismatch, and the
    values under a nonzero mask byte are kept in their order. *)
Definition ColumnVector_filter (data filt : list Z) (result_size_hint : Z)
  : Result (list Z) :=
  if negb (length data =? length filt)%nat then Throw SIZES_OF_COLUMNS_DOESNT_MATCH
  else Normal (filter_loop filt data).

(** [filter(filt, result_size_hint)]. The hint only reserves memory. *)
Fixpoint filter (c : IColumn) (filt : list Z) (result_size_hint : Z) : Result IColumn :=
  match c with
  | ColumnVector T data =>
      do filtered <- ColumnVector_filter data filt result_size_hint ;
      Normal (ColumnVector T filtered)
  | ColumnDecimal T scale data =>
      if negb (length data =? length filt)%nat then Throw SIZES_OF_COLUMNS_DOESNT_MATCH
      else Normal (ColumnDecimal T scale (filter_loop filt data))
  | ColumnConst data s =>
      if negb (s =? Z.of_nat (length filt)) then Throw SIZES_OF_COLUMNS_DOESNT_MATCH
      else ColumnConst_create data (countBytesInFilter filt)
  | ColumnNullable nested_column null_map =>
      do filtered_data <- filter nested_column filt result_size_hint ;
      do filtered_null_map <- ColumnVector_filter null_map filt result_size_hint ;
      ColumnNullable_create filtered_data filtered_null_map
  end.

(** ** Comparison of decimals *)

(** Modelled from the spec: [decimalLess<T>(x, y, x_scale, y_scale)] is
    declared in column_decimal.cpp and defined outside the sources. It is
    the decimal-comparison primitive that rescales one operand before it
    compares: the value of the smaller scale is multiplied by the power of
    ten that brings both values to the same scale. *)
Definition decimalLess (x y : Z) (x_scale y_scale : nat) : bool :=
  if (x_scale <? y_scale)%nat then x * 10 ^ Z.of_nat (y_scale - x_scale) <? y
  else x <? y * 10 ^ Z.of_nat (x_scale - y_scale).

(** [ColumnDecimal<T>::compareAt(n, m, rhs_, nan_direction_hint)], for any
    implementation [decimal_less] of the primitive. [rhs_] is cast to
    [ColumnDecimal<T>] unchecked. *)
Definition ColumnDecimal_compareAt (decimal_less : Z -> Z -> nat -> nat -> bool)
  (c : IColumn) (n m : nat) (rhs_ : IColumn) (nan_direction_hint : Z) : Result Z :=
  match c, rhs_ with
  | ColumnDecimal _ scale data, ColumnDecimal _ other_scale other_data =>
      let a := at_ data n in
      let b := at_ other_data m in
      if (scale =? other_scale)%nat
      then Normal (if a >? b then 1 else if a <? b then -1 else 0)
      else Normal (if decimal_less b a other_scale scale then 1
                   else if decimal_less a b scale other_scale then -1 else 0)
  | _, _ => Undefined
  end.

(** ** Read accessors

    [getDataAt], [get64], [getUInt], [getInt], [getBool] and [getFloat64]
    are virtual. [ColumnConst] overrides each by a call of the same method
    on its data column at row 0 (column_const.h). [ColumnVector] defines
    [getDataAt], [getUInt], [getInt] and [getBool] in column_vector.h,
    [ColumnDecimal] defines [get64] in column_decimal.cpp, and
    [ColumnNullable] defines [getDataAt] in column_nullable.cpp. The
    members that the sources only declare, or inherit from headers outside
    them, are the fields of [DeclaredAccessors], whatever they do; a
    [Float64] is not looked into. *)
Record DeclaredAccessors := {
  Float64 : Type;
  ColumnVector_get64 : NumT -> list Z -> nat -> Result Z;
  ColumnVector_getFloat64 : NumT -> list Z -> nat -> Result Float64;
  ColumnDecimal_getDataAt : NumT -> nat -> list Z -> nat -> Result (list Z);
  ColumnDecimal_getUInt : NumT -> nat -> list Z -> nat -> Result Z;
  ColumnDecimal_getInt : NumT -> nat -> list Z -> nat -> Result Z;
  ColumnDecimal_getBool : NumT -> nat -> list Z -> nat -> Result bool;
  ColumnDecimal_getFloat64 : NumT -> nat -> list Z -> nat -> Result Float64;
  ColumnNullable_get64 : IColumn -> list Z -> nat -> Result Z;
  ColumnNullable_getUInt : IColumn -> list Z -> nat -> Result Z;
  ColumnNullable_getInt : IColumn -> list Z -> nat -> Result Z;
  ColumnNullable_getBool : IColumn -> list Z -> nat -> Result bool;
  ColumnNullable_getFloat64 : IColumn -> list Z -> nat -> Result Float64
}.

(** [data[n]] where the row exists; a read past the array has no defined
    result. *)
Definition elementAt (data : list Z) (n : nat) : Result Z :=
  if (n <? length data)%nat then Normal (at_ data n) else Undefined.

Section VirtualAccessors.

Variable declared : DeclaredAccessors.

(** [getDataAt(n)], the bytes the [StringRef] spans: [ColumnVector] gives
    the [sizeof(data[n])] bytes at [&data[n]]; [ColumnNullable] throws. *)
Fixpoint getDataAt (c : IColumn) (n : nat) : Result (list Z) :=
  match c with
  | ColumnVector T data =>
      do x <- elementAt data n ; Normal (storeBytes (sizeofT T) x)
  | ColumnDecimal T scale data => ColumnDecimal_getDataAt declared T scale data n
  | ColumnConst data _ => getDataAt data 0
  | ColumnNullable _ _ => Throw NOT_IMPLEMENTED
  end.

(** [get64(n)]: [ColumnDecimal<T>] throws for a [T] wider than [UInt64] and
    converts the native value otherwise. *)
Fixpoint get64 (c : IColumn) (n : nat) : Result Z :=
  match c with
  | ColumnVector T data => ColumnVector_get64 declared T data n
  | ColumnDecimal T _ data =>
      if (8 <? sizeofT T)%nat then Throw NOT_IMPLEMENTED
      else do x <- elementAt data n ; Normal (castT UInt64T x)
  | ColumnConst data _ => get64 data 0
  | ColumnNullable nested_column null_map =>
      ColumnNullable_get64 declared nested_column null_map n
  end.

(** [getUInt(n)]: [UInt64(data[n])] in [ColumnVector]. *)
Fixpoint getUInt (c : IColumn) (n : nat) : Result Z :=
  match c with
  | ColumnVector _ data => do x <- elementAt data n ; Normal (castT UInt64T x)
  | ColumnDecimal T scale data => ColumnDecimal_getUInt declared T scale data n
  | ColumnConst data _ => getUInt data 0
  | ColumnNullable nested_column null_map =>
      ColumnNullable_getUInt declared nested_column null_map n
  end.

(** [getInt(n)]: [Int64(data[n])] in [ColumnVector]. *)
Fixpoint getInt (c : IColumn) (n : nat) : Result Z :=
  match c with
  | ColumnVector _ data => do x <- elementAt data n ; Normal (castT Int64T x)
  | ColumnDecimal T scale data => ColumnDecimal_getInt declared T scale data n
  | ColumnConst data _ => getInt data 0
  | ColumnNullable nested_column null_map =>
      ColumnNullable_getInt declared nested_column null_map n
  end.

(** [getBool(n)]: [bool(data[n])] in [ColumnVector]. *)
Fixpoint getBool (c : IColumn) (n : nat) : Result bool :=
  match c with
  | ColumnVector _ data => do x <- elementAt data n ; Normal (negb (x =? 0))
  | ColumnDecimal T scale data => ColumnDecimal_getBool declared T scale data n
  | ColumnConst data _ => getBool data 0
  | ColumnNullable nested_column null_map =>
      ColumnNullable_getBool declared nested_column null_map n
  end.

(** [getFloat64(n)]. *)
Fixpoint getFloat64 (c : IColumn) (n : nat) : Result (Float64 declared) :=
  match c with
  | ColumnVector T data => ColumnVector_getFloat64 declared T data n
  | ColumnDecimal T scale data => ColumnDecimal_getFloat64 declared T scale data n
  | ColumnConst data _ => getFloat64 data 0
  | ColumnNullable nested_column null_map =>
      ColumnNullable_getFloat64 declared nested_column null_map n
  end.

End VirtualAccessors.

(** ** Class invariants

    What the constructors establish: a [ColumnConst] wraps a column of one
    row that is not itself constant and repeats it [s] times, [s] a
    [size_t]; a [ColumnNullable] wraps a column that can be inside a
    nullable one, with one null-map byte per row; stored values are values
    of the element type. *)
Definition inRangeTb (T : NumT) (v : Z) : bool :=
  if signedT T then (- 2 ^ (bitsT T - 1) <=? v) && (v <? 2 ^ (bitsT T - 1))
  else (0 <=? v) && (v <? 2 ^ bitsT T).

Definition isColumnConst (c : IColumn) : bool :=
  match c with ColumnConst _ _ => true | _ => false end.

Fixpoint wf (c : IColumn) : bool :=
  match c with
  | ColumnVector T data => forallb (inRangeTb T) data
  | ColumnDecimal T _ data => forallb (inRangeTb T) data
  | ColumnConst data s =>
      negb (isColumnConst data) && (size data =? 1) && (0 <=? s) && (s <? 2 ^ 64)
      && wf data
  | ColumnNullable nested_column null_map =>
      canBeInsideNullable nested_column
      && (Z.of_nat (length null_map) =? size nested_column)
      && forallb (inRangeTb UInt8T) null_map
      && wf nested_column
  end.

End Columns.

(** * The permutation of a nullable column *)

Module NullablePermutation.

Import Columns.

(** [std::swap(res[i], res[j])]. *)
Definition swap (res : list nat) (i j : nat) : list nat :=
  <[i := nth j res O]> (<[j := nth i res O]> res).

Section WithNullMap.

(** [getNullMapData()] of the receiver. *)
Variable null_map : list Z.

(** [isNullAt(res[idx])]. *)
Definition isNullRow (res : list nat) (idx : nat) : bool :=
  negb (at_ null_map (nth idx res O) =? 0)%Z.

(** [while (read_idx < limit && !isNullAt(res[read_idx])) { ++read_idx;
    ++write_idx; }], run for the [limit - read_idx] indices left; gives
    the common value of both indices. *)
Fixpoint skip_forward (left : nat) (res : list nat) (read_idx : nat) : nat :=
  match left with
  | O => read_idx
  | S left' =>
      if negb (isNullRow res read_idx) then skip_forward left' res (S read_idx)
      else read_idx
  end.

(** [while (read_idx < end_idx && write_idx < limit)], run for the
    [end_idx - read_idx] indices left. *)
Fixpoint shift_to_end (left : nat) (res : list nat) (read_idx write_idx limit : nat)
  : list nat :=
  match left with
  | O => res
  | S left' =>
      if (write_idx <? limit)%nat then
        if negb (isNullRow res read_idx)
        then shift_to_end left' (swap res read_idx write_idx) (S read_idx) (S write_idx) limit
        else shift_to_end left' res (S read_idx) write_idx limit
      else res
  end.

(** [while (read_idx >= 0 && !isNullAt(res[read_idx])) { --read_idx;
    --write_idx; }] on [ssize_t] indices, run for the [read_idx + 1]
    indices left. *)
Fixpoint skip_backward (left : nat) (res : list nat) (read_idx : Z) : Z :=
  match left with
  | O => read_idx
  | S left' =>
      if negb (isNullRow res (Z.to_nat read_idx)) then skip_backward left' res (read_idx - 1)
      else read_idx
  end.

(** [while (read_idx >= 0 && write_idx >= 0)], run for the [read_idx + 1]
    indices left. *)
Fixpoint shift_to_begin (left : nat) (res : list nat) (read_idx write_idx : Z)
  : list nat :=
  match left with
  | O => res
  | S left' =>
      if (0 <=? write_idx)%Z then
        if negb (isNullRow res (Z.to_nat read_idx))
        then shift_to_begin left' (swap res (Z.to_nat read_idx) (Z.to_nat write_idx))
               (read_idx - 1) (write_idx - 1)
        else shift_to_begin left' res (read_idx - 1) write_idx
      else res
  end.

(** [ColumnNullable::getPermutation(reverse, limit, null_direction_hint,
    res)]. [nested_getPermutation] is [getNestedColumn().getPermutation],
    giving the array it leaves in [res]. *)
Definition getPermutation
  (nested_getPermutation : bool -> nat -> Z -> list nat)
  (reverse : bool) (limit : nat) (null_direction_hint : Z) : list nat :=
  let res := nested_getPermutation reverse O null_direction_hint in
  if negb (Bool.eqb (0 <? null_direction_hint)%Z reverse) then
    let end_idx := length res in
    let limit := if (limit =? 0)%nat then end_idx else Nat.min end_idx limit in
    let read_idx := skip_forward limit res O in
    let write_idx := read_idx in
    let read_idx := S read_idx in
    shift_to_end (end_idx - read_idx) res read_idx write_idx limit
  else
    let read_idx := (Z.of_nat (length res) - 1)%Z in
    let read_idx := skip_backward (Z.to_nat (read_idx + 1)) res read_idx in
    let write_idx := read_idx in
    let read_idx := (read_idx - 1)%Z in
    shift_to_begin (Z.to_nat (read_idx + 1)) res read_idx write_idx.

End WithNullMap.

End NullablePermutation.

(** * The null-skipping adapter of aggregate functions *)

Module Aggregate.

Import Columns.

Local Open Scope Z_scope.

(** [IAggregateFunction]: a function object without state of its own; the
    aggregation state ("place") is a value of [Data]. *)
Record IAggregateFunction := {
  Data : Type;
  create : Data;
  add : Data -> list IColumn -> nat -> Data;
  merge : Data -> Data -> Data;
  insertResultInto : Data -> IColumn -> Result IColumn
}.

Section NullAdapter.

(** Template parameter and the nested function. *)
Variable result_is_nullable : bool.
Variable nested_function : IAggregateFunction.

(** The place of the adapter: the flag byte [place[0]] of the prefix, then
    the nested state at [nestedPlace(place)]. Without [result_is_nullable]
    the prefix is empty and the flag is never read or written. *)
Record NullPlace := {
  flag : Z;
  nestedPlace : Data nested_function
}.

Definition initFlag (place : NullPlace) : NullPlace :=
  if result_is_nullable then {| flag := 0; nestedPlace := nestedPlace place |} else place.

Definition setFlag (place : NullPlace) : NullPlace :=
  if result_is_nullable then {| flag := 1; nestedPlace := nestedPlace place |} else place.

Definition getFlag (place : NullPlace) : bool :=
  if result_is_nullable then negb (flag place =? 0) else true.

(** [create(place)] on the memory [place] points to. *)
Definition NullBase_create (place : NullPlace) : NullPlace :=
  let place := initFlag place in
  {| flag := flag place; nestedPlace := create nested_function |}.

(** [AggregateFunctionNullBase::merge]. *)
Definition NullBase_merge (place rhs : NullPlace) : NullPlace :=
  let place := if result_is_nullable && getFlag rhs then setFlag place else place in
  {| flag := flag place;
     nestedPlace := merge nested_function (nestedPlace place) (nestedPlace rhs) |}.

(** [AggregateFunctionNullBase::insertResultInto(place, to)]. *)
Definition NullBase_insertResultInto (place : NullPlace) (to : IColumn) : Result IColumn :=
  if result_is_nullable then
    match to with
    | ColumnNullable nested_column null_map =>
        if getFlag place then
          do nested <- insertResultInto nested_function (nestedPlace place) nested_column ;
          Normal (ColumnNullable nested (null_map ++ [0]))
        else Normal (insertDefault to)
    | _ => Undefined
    end
  else insertResultInto nested_function (nestedPlace place) to.

(** [AggregateFunctionNullUnary::add(place, columns, row_num, arena)]. *)
Definition NullUnary_add (place : NullPlace) (columns : list IColumn) (row_num : nat)
  : Result NullPlace :=
  match columns with
  | ColumnNullable nested_column null_map :: _ =>
      let column := ColumnNullable nested_column null_map in
      if negb (isNullAt column row_num) then
        let place := setFlag place in
        Normal {| flag := flag place;
                  nestedPlace := add nested_function (nestedPlace place)
                                   [nested_column] row_num |}
      else Normal place
  | _ => Undefined
  end.

(** [addBatchSinglePlace(batch_size, place, columns, arena)]: [add] for the
    rows [i, i + batch_size). *)
Fixpoint addBatchSinglePlace_from (i batch_size : nat) (place : NullPlace)
  (columns : list IColumn) : Result NullPlace :=
  match batch_size with
  | O => Normal place
  | S batch_size' =>
      do place' <- NullUnary_add place columns i ;
      addBatchSinglePlace_from (S i) batch_size' place' columns
  end.

Definition addBatchSinglePlace (batch_size : nat) (place : NullPlace)
  (columns : list IColumn) : Result NullPlace :=
  addBatchSinglePlace_from O batch_size place columns.

End NullAdapter.

Arguments flag {nested_function} _.
Arguments nestedPlace {nested_function} _.
Arguments Build_NullPlace {nested_function} _ _.

(** Modelled from the spec: the nested "count" function the spec's example
    wraps is not in the sources. It counts the rows it is given in a
    [UInt64] and appends the count to a [ColumnVector<UInt64>]. *)
Definition AggregateFunctionCount : IAggregateFunction := {|
  Data := Z;
  create := 0;
  add := fun count _ _ => wrap64 (count + 1);
  merge := fun count rhs => wrap64 (count + rhs);
  insertResultInto := fun count to =>
    match to with
    | ColumnVector T data => Normal (ColumnVector T (data ++ [count]))
    | _ => Undefined
    end
|}.

End Aggregate.

(** * Facts about the columns *)

Module ColumnFacts.

Import Columns.
Local Open Scope Z_scope.

(** Splits a boolean conjunction into its conjuncts and turns each
    comparison into its proposition. *)
Ltac split_bool :=
  repeat match goal with
  | H : (_ && _) = true |- _ => apply andb_true_iff in H; destruct H
  | H : negb _ = true |- _ => apply negb_true_iff in H
  | H : negb _ = false |- _ => apply negb_false_iff in H
  | H : (_ <=? _)%Z = true |- _ => apply Z.leb_le in H
  | H : (_ <? _)%Z = true |- _ => apply Z.ltb_lt in H
  | H : (_ =? _)%Z = true |- _ => apply Z.eqb_eq in H
  | H : (_ =? _)%Z = false |- _ => apply Z.eqb_neq in H
  | H : (_ =? _)%nat = true |- _ => apply Nat.eqb_eq in H
  | H : (_ =? _)%nat = false |- _ => apply Nat.eqb_neq in H
  | H : (_ <? _)%nat = true |- _ => apply Nat.ltb_lt in H
  | H : (_ <? _)%nat = false |- _ => apply Nat.ltb_ge in H
  end.

Lemma length_storeBytes n v : length (storeBytes n v) = n.
Proof. revert v. induction n as [|n IH]; intros v; simpl; [reflexivity | now rewrite IH]. Qed.

Lemma loadBytes_storeBytes n v :
  loadBytes (storeBytes n v) = v mod 256 ^ Z.of_nat n.
Proof.
  revert v. induction n as [|n IH]; intros v.
  - simpl. now rewrite Z.mod_1_r.
  - cbn [storeBytes loadBytes]. rewrite IH.
    rewrite Nat2Z.inj_succ, Z.pow_succ_r by lia.
    rewrite Z.rem_mul_r by lia. reflexivity.
Qed.

Lemma pow_256_bits T : 256 ^ Z.of_nat (sizeofT T) = 2 ^ bitsT T.
Proof.
  unfold bitsT. change 256 with (2 ^ 8). rewrite <- Z.pow_mul_r by lia. reflexivity.
Qed.

Lemma inRangeTb_spec T v : inRangeTb T v = true <-> inRangeT T v.
Proof.
  unfold inRangeTb, inRangeT. destruct (signedT T);
    rewrite andb_true_iff, Z.leb_le, Z.ltb_lt; tauto.
Qed.

Lemma castT_in_range T v : inRangeT T v -> castT T (v mod 2 ^ bitsT T) = v.
Proof.
  unfold inRangeT, castT. intros H.
  assert (Hb : 0 <= bitsT T) by (unfold bitsT; lia).
  rewrite Z.mod_mod by lia.
  destruct (signedT T); simpl.
  - destruct (Z.eq_dec (bitsT T) 0) as [E|E].
    + rewrite E in *. simpl in H. lia.
    + assert (E2 : 2 ^ bitsT T = 2 * 2 ^ (bitsT T - 1)).
      { rewrite <- Z.pow_succ_r by lia. f_equal. lia. }
      assert (0 < 2 ^ (bitsT T - 1)) by (apply Z.pow_pos_nonneg; lia).
      destruct (Z.leb_spec (2 ^ (bitsT T - 1)) (v mod 2 ^ bitsT T)) as [L|L].
      * destruct (Z.neg_nonneg_cases v) as [N|N].
        -- rewrite <- (Z.mod_add v 1) by lia. rewrite Z.mod_small by lia. lia.
        -- rewrite Z.mod_small in L by lia. lia.
      * destruct (Z.neg_nonneg_cases v) as [N|N].
        -- rewrite <- (Z.mod_add v 1) in L by lia. rewrite Z.mod_small in L by lia. lia.
        -- rewrite Z.mod_small by lia. reflexivity.
  - apply Z.mod_small. lia.
Qed.

Lemma unalignedLoad_storeBytes T v rest :
  inRangeT T v ->
  unalignedLoad T (storeBytes (sizeofT T) v ++ rest) = Normal v.
Proof.
  intros H. unfold unalignedLoad.
  rewrite length_app, length_storeBytes.
  destruct (Nat.ltb_spec (sizeofT T + length rest) (sizeofT T)) as [L|L]; [lia|].
  rewrite take_app_length' by (symmetry; apply length_storeBytes).
  rewrite loadBytes_storeBytes, pow_256_bits. now rewrite castT_in_range.
Qed.

Lemma drop_storeBytes n v (rest : list Z) : drop n (storeBytes n v ++ rest) = rest.
Proof. apply drop_app_length'. symmetry. apply length_storeBytes. Qed.

(** ** Rows of the column classes *)

Lemma map_nth_seq {A B} (f : A -> B) (d : A) (l : list A) :
  map (fun n => f (nth n l d)) (seq 0 (length l)) = map f l.
Proof.
  induction l as [|x l IH]; [reflexivity|].
  cbn [length seq map]. rewrite <- seq_shift, map_map. cbn [nth]. now rewrite IH.
Qed.

(** Opens the members whose bodies are outside the sources. *)
Ltac open_members :=
  unfold IColumn_isNullAt, IColumn_canBeInsideNullable,
    IColumn_convertToFullColumnIfConst, ColumnDecimal_size, ColumnDecimal_index,
    ColumnDecimal_byteSize, ColumnDecimal_insertDefault, ColumnDecimal_popBack,
    ColumnDecimal_insert, ColumnDecimal_insertFrom,
    ColumnDecimal_canBeInsideNullable, ColumnNullable_size,
    ColumnNullable_isNullAt, ColumnNullable_insertDefault,
    ColumnVector_insertRangeFrom, ColumnVector_serializeValueIntoArena,
    ColumnVector_deserializeAndInsertFromArena, ColumnVector_filter,
    ColumnVector_replicate in *.

Lemma rows_ColumnVector T data : rows (ColumnVector T data) = map NumField data.
Proof.
  unfold rows. cbn [size index]. rewrite Nat2Z.id. apply (map_nth_seq NumField).
Qed.

Lemma rows_ColumnDecimal T scale data :
  rows (ColumnDecimal T scale data) = map (fun v => DecimalField v scale) data.
Proof.
  unfold rows. cbn [size index]. open_members. rewrite Nat2Z.id.
  apply (map_nth_seq (fun v => DecimalField v scale)).
Qed.

Lemma rows_ColumnConst data s :
  rows (ColumnConst data s) = replicate (Z.to_nat s) (index data 0).
Proof.
  unfold rows. cbn [size index]. generalize (Z.to_nat s) as n. intros n.
  generalize 0%nat at 2 as k. induction n as [|n IH]; intros k; [reflexivity|].
  cbn [seq map replicate]. now rewrite IH.
Qed.

Lemma length_rows c : 0 <= size c -> Z.of_nat (length (rows c)) = size c.
Proof. intros H. unfold rows. rewrite length_map, length_seq. lia. Qed.

Lemma size_nonneg c : wf c = true -> 0 <= size c.
Proof.
  induction c as [T d|T sc d|data IH s|n IH nm]; cbn [wf size]; open_members;
    intros H; try lia.
  split_bool. auto.
Qed.

(** The nested column of a nullable one is a vector or a decimal column. *)
Lemma canBeInsideNullable_cases c :
  canBeInsideNullable c = true ->
  (exists T data, c = ColumnVector T data) \/ (exists T scale data, c = ColumnDecimal T scale data).
Proof. destruct c; cbn; intros H; try discriminate; eauto. Qed.

Lemma at_app_l (l1 l2 : list Z) n : (n < length l1)%nat -> at_ (l1 ++ l2) n = at_ l1 n.
Proof. intros H. unfold at_. now rewrite app_nth1. Qed.

Lemma at_app_length (l1 : list Z) x : at_ (l1 ++ [x]) (length l1) = x.
Proof. unfold at_. rewrite app_nth2 by lia. now rewrite Nat.sub_diag. Qed.

(** The default value a column class appends. *)
Definition defaultField (c : IColumn) : Field :=
  match c with
  | ColumnVector _ _ => NumField 0
  | ColumnDecimal _ scale _ => DecimalField 0 scale
  | _ => Null
  end.

Lemma insertDefault_leaf c :
  canBeInsideNullable c = true ->
  size (insertDefault c) = size c + 1 /\
  index (insertDefault c) (Z.to_nat (size c)) = defaultField c /\
  (forall i, (Z.of_nat i < size c) -> index (insertDefault c) i = index c i) /\
  canBeInsideNullable (insertDefault c) = true /\
  popBack (insertDefault c) 1 = c.
Proof.
  intros H. destruct (canBeInsideNullable_cases c H) as [(T & d & ->)|(T & sc & d & ->)];
    cbn [insertDefault size index defaultField canBeInsideNullable popBack];
    open_members;
    rewrite ?Nat2Z.id, ?length_app, ?at_app_length; cbn [length];
    (split; [lia|]); (split; [reflexivity|]);
    (split; [intros i Hi; rewrite at_app_l by lia; reflexivity|]);
    (split; [reflexivity|]);
    replace (length d + 1 - 1)%nat with (length d) by lia;
    now rewrite take_app_length.
Qed.

(** ** [replicate] returns *)

Lemma ColumnConst_create_shape data s r :
  ColumnConst_create data s = Normal r ->
  exists d, r = ColumnConst d s /\ (depth d <= depth data)%nat.
Proof.
  induction data as [T d|T sc d|data IH s'|n IH nm]; cbn [ColumnConst_create depth].
  - destruct (size _ =? 1); [|discriminate]. intros [= <-]. eauto.
  - destruct (size _ =? 1); [|discriminate]. intros [= <-]. eauto.
  - intros H. destruct (IH H) as (d & -> & Hd). exists d. split; [reflexivity|lia].
  - destruct (size _ =? 1); [|discriminate]. intros [= <-]. eauto.
Qed.

Lemma ColumnConst_create_not_Diverge data s : ColumnConst_create data s <> Diverge.
Proof.
  induction data as [T d|T sc d|data IH s'|n IH nm]; cbn [ColumnConst_create];
    try assumption; now destruct (size _ =? 1).
Qed.

(** Only a constant column replicates to a constant column, over data that
    it wraps. *)
Lemma replicate_rec_const fuel c offsets d s :
  replicate_rec fuel c offsets = Normal (ColumnConst d s) -> (depth d < depth c)%nat.
Proof.
  destruct fuel as [|fuel]; [discriminate|].
  destruct c as [T data|T sc data|data s'|nested nm]; cbn [replicate_rec depth].
  - destruct (ColumnVector_replicate data offsets); discriminate.
  - destruct (_ =? _)%nat; discriminate.
  - destruct (s' =? _); [|discriminate]. intros H.
    apply ColumnConst_create_shape in H as (d' & [= <- _] & Hd). lia.
  - destruct (replicate_rec fuel nested offsets) as [r| | |]; try discriminate.
    cbn [bindR]. destruct (ColumnVector_replicate nm offsets); try discriminate.
    cbn [bindR]. unfold ColumnNullable_ctor.
    destruct r as [? ?|? ? ?|rd rs|? ?]; cbn [bindR canBeInsideNullable negb];
      open_members; try discriminate.
    destruct (replicate_rec fuel rd [rs]); try discriminate.
    cbn [bindR]. now destruct (negb _).
Qed.

(** The fuel [replicate_] gives is enough: the recursion ends. *)
Lemma replicate_rec_terminates fuel :
  forall c offsets, (depth c < fuel)%nat -> replicate_rec fuel c offsets <> Diverge.
Proof.
  induction fuel as [|fuel IH]; intros c offsets Hfuel; [lia|].
  destruct c as [T data|T sc data|data s|nested nm]; cbn [replicate_rec depth] in *.
  - open_members. now destruct (_ =? _)%nat.
  - now destruct (_ =? _)%nat.
  - destruct (s =? _); [apply ColumnConst_create_not_Diverge|discriminate].
  - pose proof (IH nested offsets ltac:(lia)) as Hn.
    destruct (replicate_rec fuel nested offsets) as [r| | |] eqn:Er;
      try discriminate; try contradiction.
    cbn [bindR]. open_members. destruct (_ =? _)%nat; [|discriminate].
    cbn [bindR]. unfold ColumnNullable_ctor.
    destruct r as [? ?|? ? ?|rd rs|? ?]; cbn [bindR canBeInsideNullable negb];
      try discriminate.
    apply replicate_rec_const in Er.
    pose proof (IH rd [rs] ltac:(lia)) as Hd.
    destruct (replicate_rec fuel rd [rs]); try discriminate; try contradiction.
    cbn [bindR]. now destruct (negb _).
Qed.

Lemma replicate_terminates c offsets : replicate_ c offsets <> Diverge.
Proof. apply replicate_rec_terminates. lia. Qed.

(** ** Constant columns *)

Lemma wrap64_small z : 0 <= z < 2 ^ 64 -> wrap64 z = z.
Proof. intros H. unfold wrap64. now apply Z.mod_small. Qed.

(** [get] stores what [operator[]] returns, in every column class. *)
Lemma get_index c n : get c n = index c n.
Proof.
  revert n. induction c as [T d|T sc d|data IH s|nested IH nm]; intros n; cbn [get index].
  - reflexivity.
  - reflexivity.
  - apply IH.
  - now rewrite IH.
Qed.

(** C9 (as the code has it). Every read accessor of a [ColumnConst], at any
    index [n], does what the same accessor does on row 0 of the wrapped
    column. Over a vector whose row 0 holds [v] this is [v]: as a field,
    as its bytes, converted to [UInt64], to [Int64], to [bool], and never
    null; over a decimal column it is the decimal field, and [get64] gives
    the value for a decimal of up to 8 bytes and throws for a wider one;
    over a nullable column it is Null or the nested row 0 by the null-map
    byte, and [getDataAt] throws. [size()] is the repeat count [s].
    [insert], [insertData], [insertFrom], [insertDefault] and
    [insertRangeFrom] return the same wrapped column with the count
    [(s + rows) mod 2^64], which is [s + rows] when that fits a [size_t], so
    that [byteSize()] keeps its data term and every accessor its value. *)
Theorem ColumnConst_reads_row0_inserts_count
  (declared : DeclaredAccessors) (data : IColumn) (s : Z) (n : nat)
  (x : Field) (pos : option (list Z)) (len : Z) (src : IColumn) (m : nat)
  (start length : Z) :
  let c := ColumnConst data s in
  (index c n = index data 0 /\ get c n = get data 0 /\
   getDataAt declared c n = getDataAt declared data 0 /\
   get64 declared c n = get64 declared data 0 /\
   getUInt declared c n = getUInt declared data 0 /\
   getInt declared c n = getInt declared data 0 /\
   getBool declared c n = getBool declared data 0 /\
   getFloat64 declared c n = getFloat64 declared data 0 /\
   isNullAt c n = isNullAt data 0) /\
  (forall T v rest, data = ColumnVector T (v :: rest) ->
     index c n = NumField v /\ get c n = NumField v /\
     getDataAt declared c n = Normal (storeBytes (sizeofT T) v) /\
     getUInt declared c n = Normal (castT UInt64T v) /\
     getInt declared c n = Normal (castT Int64T v) /\
     getBool declared c n = Normal (negb (v =? 0)) /\
     isNullAt c n = false) /\
  (forall T scale v rest, data = ColumnDecimal T scale (v :: rest) ->
     index c n = DecimalField v scale /\ get c n = DecimalField v scale /\
     get64 declared c n
     = (if (8 <? sizeofT T)%nat then Throw NOT_IMPLEMENTED
        else Normal (castT UInt64T v)) /\
     isNullAt c n = false) /\
  (forall nested byte rest, data = ColumnNullable nested (byte :: rest) ->
     isNullAt c n = negb (byte =? 0) /\
     index c n = (if byte =? 0 then index nested 0 else Null) /\
     get c n = (if byte =? 0 then get nested 0 else Null) /\
     getDataAt declared c n = Throw NOT_IMPLEMENTED) /\
  size c = s /\
  (insert c x = Normal (ColumnConst data (wrap64 (s + 1))) /\
   insertData c pos len = Normal (ColumnConst data (wrap64 (s + 1))) /\
   insertFrom c src m = Normal (ColumnConst data (wrap64 (s + 1))) /\
   insertDefault c = ColumnConst data (wrap64 (s + 1)) /\
   insertRangeFrom c src start length = Normal (ColumnConst data (wrap64 (s + length)))) /\
  (forall k, 0 <= s + k < 2 ^ 64 -> wrap64 (s + k) = s + k) /\
  (forall s', byteSize (ColumnConst data s') = byteSize data + 8 /\
              byteSize (ColumnConst data s') = byteSize c /\
              index (ColumnConst data s') n = index c n /\
              get (ColumnConst data s') n = get c n /\
              getDataAt declared (ColumnConst data s') n = getDataAt declared c n).
Proof.
  cbn zeta.
  split; [repeat split|].
  split.
  { intros T v rest ->. cbn. repeat split. }
  split.
  { intros T scale v rest ->. cbn. open_members. repeat split. }
  split.
  { intros nested byte rest ->. cbn [isNullAt index get getDataAt]. open_members.
    unfold at_. cbn [nth]. destruct (byte =? 0); repeat split. }
  split; [reflexivity|].
  split; [repeat split|].
  split; [intros k Hk; now apply wrap64_small|].
  intros s'. repeat split.
Qed.

(** C9, counterexample: over a nullable wrapped column, whose row 0 holds
    7, [getDataAt] of the constant column returns no value: it throws.
    Inserting into a constant column of [2^64 - 1] rows gives one of 0
    rows, and a range of 5 rows gives one of 4 rows: the count does not
    increase. *)
Lemma ColumnConst_getDataAt_throws_and_count_wraps :
  (index (ColumnNullable (ColumnVector Int32T [7]) [0]) 0 = NumField 7 /\
   forall declared n,
     getDataAt declared (ColumnConst (ColumnNullable (ColumnVector Int32T [7]) [0]) 5) n
     = Throw NOT_IMPLEMENTED) /\
  (insert (ColumnConst (ColumnVector Int32T [7]) (2 ^ 64 - 1)) (NumField 7)
   = Normal (ColumnConst (ColumnVector Int32T [7]) 0) /\
   insertRangeFrom (ColumnConst (ColumnVector Int32T [7]) (2 ^ 64 - 1))
     (ColumnConst (ColumnVector Int32T [7]) 9) 0 5
   = Normal (ColumnConst (ColumnVector Int32T [7]) 4) /\
   size (ColumnConst (ColumnVector Int32T [7]) 0)
   < size (ColumnConst (ColumnVector Int32T [7]) (2 ^ 64 - 1)) /\
   size (ColumnConst (ColumnVector Int32T [7]) 4)
   < size (ColumnConst (ColumnVector Int32T [7]) (2 ^ 64 - 1))).
Proof.
  split; [split; [reflexivity|intros; reflexivity]|].
  split; [reflexivity|]. split; [reflexivity|]. split; reflexivity.
Qed.

(** ** Serialization *)

Lemma take_app_one {A} (l : list A) (x : A) : take (length (l ++ [x]) - 1) (l ++ [x]) = l.
Proof.
  rewrite length_app. cbn [length].
  replace (length l + 1 - 1)%nat with (length l) by lia. apply take_app_length.
Qed.

Lemma wrap64_succ_pred s : 0 <= s < 2 ^ 64 -> wrap64 (wrap64 (s + 1) - 1) = s.
Proof.
  intros H. unfold wrap64.
  destruct (Z.eq_dec (s + 1) (2 ^ 64)) as [E|E].
  - rewrite E, Z.mod_same by lia. replace s with (2 ^ 64 - 1) by lia. reflexivity.
  - rewrite (Z.mod_small (s + 1)) by lia. rewrite Z.mod_small by lia. lia.
Qed.

(** Undoing a deserialization with [popBack(1)] gives the column back. *)
Lemma deserialize_popBack c :
  wf c = true ->
  forall pos c' rest,
    deserializeAndInsertFromArena c pos = Normal (c', rest) -> popBack c' 1 = c.
Proof.
  induction c as [T d|T sc d|data IH s|nested IH nm]; cbn [wf]; intros Hwf pos c' rest.
  - cbn. open_members. destruct (unalignedLoad T pos); cbn; try discriminate.
    intros [= <- <-]. cbn. now rewrite take_app_one.
  - cbn. destruct (unalignedLoad T pos); cbn; try discriminate.
    intros [= <- <-]. cbn. open_members. now rewrite take_app_one.
  - split_bool. cbn [deserializeAndInsertFromArena].
    destruct (deserializeAndInsertFromArena data pos) as [[d' r]| | |] eqn:E; cbn; try discriminate.
    intros [= <- <-]. cbn [popBack]. rewrite wrap64_succ_pred by lia.
    f_equal. apply IH in E; [|assumption]. now rewrite E.
  - split_bool. cbn [deserializeAndInsertFromArena].
    destruct pos as [|val pos']; [discriminate|].
    destruct (Z.eqb_spec val 0) as [->|Hval].
    + destruct (deserializeAndInsertFromArena nested pos') as [[d' r]| | |] eqn:E; cbn; try discriminate.
      intros [= <- <-]. cbn [popBack]. rewrite take_app_one. f_equal. eapply IH; eauto.
    + intros [= <- <-]. cbn [popBack]. rewrite take_app_one. f_equal.
      now apply insertDefault_leaf.
Qed.

(** C2 (as the code has it). [ColumnConst] does not refuse: it serializes
    row 0 of the wrapped column whatever the index, and it deserializes
    through the wrapped column, drops the row this appended, and counts one
    more row; the call fails only where the wrapped column's call fails. *)
Theorem ColumnConst_serialization_goes_through_data
  (data : IColumn) (s : Z) (n : nat) (pos : list Z) :
  wf (ColumnConst data s) = true ->
  serializeValueIntoArena (ColumnConst data s) n = serializeValueIntoArena data 0 /\
  match deserializeAndInsertFromArena data pos with
  | Normal (_, rest) =>
      deserializeAndInsertFromArena (ColumnConst data s) pos
      = Normal (ColumnConst data (wrap64 (s + 1)), rest)
  | Throw e => deserializeAndInsertFromArena (ColumnConst data s) pos = Throw e
  | Diverge => deserializeAndInsertFromArena (ColumnConst data s) pos = Diverge
  | Undefined => deserializeAndInsertFromArena (ColumnConst data s) pos = Undefined
  end.
Proof.
  intros Hwf. split; [reflexivity|].
  cbn [wf] in Hwf. split_bool. cbn [deserializeAndInsertFromArena].
  destruct (deserializeAndInsertFromArena data pos) as [[d' r]| | |] eqn:E; cbn; try reflexivity.
  apply deserialize_popBack in E; [|assumption]. now rewrite E.
Qed.

Lemma ColumnConst_serialization_goes_through_data_witness :
  wf (ColumnConst (ColumnNullable (ColumnVector Int32T [0]) [1]) 5) = true /\
  serializeValueIntoArena (ColumnConst (ColumnNullable (ColumnVector Int32T [0]) [1]) 5) 3
  = Normal [1] /\
  deserializeAndInsertFromArena
    (ColumnConst (ColumnNullable (ColumnVector Int32T [0]) [1]) 5) [1; 9]
  = Normal (ColumnConst (ColumnNullable (ColumnVector Int32T [0]) [1]) 6, [9]).
Proof.
  split; [reflexivity|].
  pose proof (ColumnConst_serialization_goes_through_data
                (ColumnNullable (ColumnVector Int32T [0]) [1]) 5 3 [1; 9] eq_refl)
    as [H1 H2].
  split; [rewrite H1; reflexivity | exact H2].
Defined.

(** C2, counterexample: on a constant null column (a nullable column of one
    null row, repeated 5 times) both calls return normally; neither throws.
    The row serializes to its null byte, and reading a null byte back
    leaves the wrapped column as it was and counts a sixth row. *)
Lemma ColumnConst_serialization_does_not_refuse :
  (serializeValueIntoArena (ColumnConst (ColumnNullable (ColumnVector Int32T [0]) [1]) 5) 3
   = Normal [1] /\
   deserializeAndInsertFromArena
     (ColumnConst (ColumnNullable (ColumnVector Int32T [0]) [1]) 5) [1]
   = Normal (ColumnConst (ColumnNullable (ColumnVector Int32T [0]) [1]) 6, [])) /\
  ~ (exists e,
       serializeValueIntoArena (ColumnConst (ColumnNullable (ColumnVector Int32T [0]) [1]) 5) 3
       = Throw e) /\
  ~ (exists e,
       deserializeAndInsertFromArena
         (ColumnConst (ColumnNullable (ColumnVector Int32T [0]) [1]) 5) [1] = Throw e).
Proof.
  split; [split; reflexivity|]. split; intros [e H]; discriminate H.
Qed.

(** Two columns of one type: the same class, element type and scale; for
    constant columns the same wrapped column (as [cloneResized] gives). *)
Fixpoint sameType (c d : IColumn) : Prop :=
  match c, d with
  | ColumnVector T _, ColumnVector T' _ => T = T'
  | ColumnDecimal T scale _, ColumnDecimal T' scale' _ => T = T' /\ scale = scale'
  | ColumnConst data _, ColumnConst data' _ => data = data'
  | ColumnNullable nested _, ColumnNullable nested' _ => sameType nested nested'
  | _, _ => False
  end.

Lemma sameType_refl c : sameType c c.
Proof. induction c; cbn; auto. Qed.

Lemma at_inRange T data n :
  forallb (inRangeTb T) data = true -> (n < length data)%nat -> inRangeT T (at_ data n).
Proof.
  intros H Hn. rewrite forallb_forall in H. apply inRangeTb_spec, H.
  unfold at_. now apply nth_In.
Qed.

Lemma round_trip_rows c :
  wf c = true ->
  forall d n rest,
    wf d = true -> sameType c d -> Z.of_nat n < size c -> size d + 1 < 2 ^ 64 ->
    exists bytes d',
      serializeValueIntoArena c n = Normal bytes /\
      deserializeAndInsertFromArena d (bytes ++ rest) = Normal (d', rest) /\
      size d' = size d + 1 /\
      index d' (Z.to_nat (size d)) = index c n /\
      (forall i, Z.of_nat i < size d -> index d' i = index d i).
Proof.
  induction c as [T data|T sc data|data IH s|cn IH cnm];
    intros Hwf d n rest Hd Hty Hn Hroom.
  - destruct d as [T' d2| | |]; cbn in Hty; try contradiction. subst T'.
    cbn [wf size] in *.
    exists (storeBytes (sizeofT T) (at_ data n)), (ColumnVector T (d2 ++ [at_ data n])).
    cbn [serializeValueIntoArena deserializeAndInsertFromArena size index].
    open_members.
    destruct (Nat.ltb_spec n (length data)) as [L|L]; [|lia].
    rewrite unalignedLoad_storeBytes by (apply at_inRange; auto). cbn [bindR fst snd].
    rewrite drop_storeBytes, length_app, Nat2Z.id, at_app_length. cbn [length].
    repeat split; try lia. intros i Hi. now rewrite at_app_l by lia.
  - destruct d as [|T' sc' d2| |]; cbn in Hty; try contradiction. destruct Hty as [<- <-].
    cbn [wf size] in *.
    exists (storeBytes (sizeofT T) (at_ data n)), (ColumnDecimal T sc (d2 ++ [at_ data n])).
    cbn [serializeValueIntoArena deserializeAndInsertFromArena size index].
    open_members.
    destruct (Nat.ltb_spec n (length data)) as [L|L]; [|lia].
    rewrite unalignedLoad_storeBytes by (apply at_inRange; auto). cbn [bindR fst snd].
    rewrite drop_storeBytes, length_app, Nat2Z.id, at_app_length. cbn [length].
    repeat split; try lia. intros i Hi. now rewrite at_app_l by lia.
  - destruct d as [| |data' s'|]; cbn in Hty; try contradiction. subst data'.
    cbn [wf size] in *. split_bool.
    destruct (IH ltac:(assumption) data 0%nat rest) as (bytes & d'' & Hs & Hdes & _);
      [assumption|apply sameType_refl|lia|lia|].
    exists bytes, (ColumnConst data (wrap64 (s' + 1))).
    cbn [serializeValueIntoArena deserializeAndInsertFromArena]. rewrite Hs, Hdes. cbn.
    rewrite (deserialize_popBack data ltac:(assumption) _ _ _ Hdes).
    rewrite wrap64_small by lia. repeat split; reflexivity.
  - destruct d as [| | |dn dnm]; cbn in Hty; try contradiction.
    cbn [wf size] in Hwf, Hd, Hn, Hroom. open_members. split_bool.
    assert (Hlen : Z.to_nat (size dn) = length dnm) by lia.
    cbn [serializeValueIntoArena].
    destruct (Nat.ltb_spec n (length cnm)) as [L|L]; [|lia].
    destruct (Z.eqb_spec (at_ cnm n) 0) as [E0|E0]; cbn [negb].
    + destruct (IH ltac:(assumption) dn n rest) as (bytes & dn' & Hs & Hdes & Hsz & Hlast & Hold);
        try assumption.
      exists (at_ cnm n :: bytes), (ColumnNullable dn' (dnm ++ [at_ cnm n])).
      rewrite Hs. cbn [bindR]. split; [reflexivity|].
      cbn [deserializeAndInsertFromArena app]. rewrite E0. cbn [Z.eqb].
      rewrite Hdes. cbn [bindR fst snd size index isNullAt]. open_members.
      split; [reflexivity|]. split; [assumption|]. split.
      * rewrite Hlen, at_app_length. cbn. rewrite E0. cbn. rewrite <- Hlen. assumption.
      * intros i Hi. rewrite at_app_l by lia. now rewrite Hold.
    + exists [at_ cnm n], (ColumnNullable (insertDefault dn) (dnm ++ [at_ cnm n])).
      split; [reflexivity|].
      cbn [deserializeAndInsertFromArena app].
      destruct (Z.eqb_spec (at_ cnm n) 0) as [?|_]; [contradiction|].
      destruct (insertDefault_leaf dn ltac:(assumption)) as (Hsz & _ & Hold & _).
      cbn [size index isNullAt]. open_members.
      split; [reflexivity|]. split; [assumption|]. split.
      * rewrite Hlen, at_app_length.
        destruct (Z.eqb_spec (at_ cnm n) 0) as [?|_]; [contradiction|]. reflexivity.
      * intros i Hi. rewrite at_app_l by lia. now rewrite Hold.
Qed.

Lemma rows_snoc c d' :
  0 <= size c -> size d' = size c + 1 ->
  (forall i, Z.of_nat i < size c -> index d' i = index c i) ->
  rows d' = rows c ++ [index d' (Z.to_nat (size c))].
Proof.
  intros H0 Hsz Hold. unfold rows. rewrite Hsz.
  replace (Z.to_nat (size c + 1)) with (S (Z.to_nat (size c))) by lia.
  rewrite seq_S, map_app. cbn [map Nat.add]. f_equal.
  apply map_ext_in. intros i Hi. apply in_seq in Hi. apply Hold. lia.
Qed.

(** C8. Serializing row [n] of a column and deserializing the bytes into a
    column of the same type appends exactly one row, equal to row [n], and
    leaves the cursor right behind the encoding, whatever follows it. The
    encoding of a decimal row is the [sizeof(T)] raw bytes of its value;
    that of a nullable row is its null-map byte, followed by the nested
    row's encoding only when the byte is zero. *)
Theorem serialize_deserialize_round_trip (c d : IColumn) (n : nat) (rest : list Z) :
  wf c = true -> wf d = true -> sameType c d ->
  Z.of_nat n < size c -> size d + 1 < 2 ^ 64 ->
  (exists bytes d',
     serializeValueIntoArena c n = Normal bytes /\
     deserializeAndInsertFromArena d (bytes ++ rest) = Normal (d', rest) /\
     size d' = size d + 1 /\
     rows d' = rows d ++ [index c n]) /\
  (forall T scale data, c = ColumnDecimal T scale data ->
     serializeValueIntoArena c n = Normal (storeBytes (sizeofT T) (at_ data n)) /\
     length (storeBytes (sizeofT T) (at_ data n)) = sizeofT T) /\
  (forall nested null_map, c = ColumnNullable nested null_map ->
     (at_ null_map n <> 0 -> serializeValueIntoArena c n = Normal [at_ null_map n]) /\
     (at_ null_map n = 0 ->
      exists nested_bytes,
        serializeValueIntoArena nested n = Normal nested_bytes /\
        serializeValueIntoArena c n = Normal (at_ null_map n :: nested_bytes))).
Proof.
  intros Hc Hd Hty Hn Hroom.
  destruct (round_trip_rows c Hc d n rest Hd Hty Hn Hroom)
    as (bytes & d' & Hs & Hdes & Hsz & Hlast & Hold).
  split; [|split].
  - exists bytes, d'. repeat split; try assumption.
    rewrite (rows_snoc d d') by (auto using size_nonneg). now rewrite Hlast.
  - intros T sc data ->. cbn [serializeValueIntoArena size] in *. open_members.
    destruct (Nat.ltb_spec n (length data)); [|lia].
    split; [reflexivity|apply length_storeBytes].
  - intros nested nm ->. cbn [wf size] in Hc, Hn. open_members. split_bool.
    cbn [serializeValueIntoArena] in *.
    destruct (Nat.ltb_spec n (length nm)); [|lia].
    split; intros E.
    + now destruct (Z.eqb_spec (at_ nm n) 0).
    + rewrite E in *. cbn [Z.eqb negb] in *.
      destruct (serializeValueIntoArena nested n) as [nb| | |]; try discriminate.
      exists nb. split; reflexivity.
Qed.

Lemma serialize_deserialize_round_trip_witness :
  let c := ColumnNullable (ColumnDecimal Int64T 3 [1500; -7]) [0; 1] in
  let d := ColumnNullable (ColumnDecimal Int64T 3 []) [] in
  (wf c = true /\ wf d = true /\ sameType c d /\ Z.of_nat 0 < size c /\ size d + 1 < 2 ^ 64) /\
  exists bytes d',
    serializeValueIntoArena c 0 = Normal bytes /\
    deserializeAndInsertFromArena d (bytes ++ [42]) = Normal (d', [42]) /\
    size d' = size d + 1 /\
    rows d' = rows d ++ [index c 0%nat].
Proof.
  cbv zeta.
  assert (H1 : wf (ColumnNullable (ColumnDecimal Int64T 3 [1500; -7]) [0; 1]) = true)
    by reflexivity.
  assert (H2 : wf (ColumnNullable (ColumnDecimal Int64T 3 []) []) = true) by reflexivity.
  assert (H3 : sameType (ColumnNullable (ColumnDecimal Int64T 3 [1500; -7]) [0; 1])
                 (ColumnNullable (ColumnDecimal Int64T 3 []) [])) by (simpl; auto).
  assert (H4 : Z.of_nat 0 < size (ColumnNullable (ColumnDecimal Int64T 3 [1500; -7]) [0; 1]))
    by (vm_compute; reflexivity).
  assert (H5 : size (ColumnNullable (ColumnDecimal Int64T 3 []) []) + 1 < 2 ^ 64)
    by (vm_compute; reflexivity).
  split; [auto|].
  exact (proj1 (serialize_deserialize_round_trip _ _ 0%nat [42] H1 H2 H3 H4 H5)).
Defined.

(** ** Null rows of a nullable column *)

(** C10 (as the code has it). Appending a null row to a nullable column,
    by [insert] of a Null field, by [insertData] with a null pointer or by
    [deserializeAndInsertFromArena] of an encoding whose null byte is
    nonzero, gives the nested column exactly one more row, holding the
    default value of its type, and leaves its other rows as they were; the
    null-map byte appended is 1 for [insert] and [insertData], and the
    byte of the encoding for [deserializeAndInsertFromArena]. *)
Theorem ColumnNullable_null_row_extends_nested
  (nested : IColumn) (null_map : list Z) (len : Z) (val : Z) (pos : list Z) :
  canBeInsideNullable nested = true ->
  let c := ColumnNullable nested null_map in
  let appended byte := ColumnNullable (insertDefault nested) (null_map ++ [byte]) in
  insert c Null = Normal (appended 1) /\
  insertData c None len = Normal (appended 1) /\
  (val <> 0 -> deserializeAndInsertFromArena c (val :: pos) = Normal (appended val, pos)) /\
  size (insertDefault nested) = size nested + 1 /\
  index (insertDefault nested) (Z.to_nat (size nested)) = defaultField nested /\
  (forall i, Z.of_nat i < size nested -> index (insertDefault nested) i = index nested i) /\
  (forall byte, byte <> 0 -> isNullAt (appended byte) (length null_map) = true).
Proof.
  intros H. cbv zeta.
  destruct (insertDefault_leaf nested H) as (Hsz & Hdef & Hold & _).
  repeat split; try assumption.
  - intros Hval. cbn [deserializeAndInsertFromArena].
    now destruct (Z.eqb_spec val 0).
  - intros byte Hb. cbn [isNullAt]. open_members. rewrite at_app_length.
    now destruct (Z.eqb_spec byte 0).
Qed.

Lemma ColumnNullable_null_row_extends_nested_witness :
  canBeInsideNullable (ColumnVector Int32T [150]) = true /\
  insert (ColumnNullable (ColumnVector Int32T [150]) [0]) Null
  = Normal (ColumnNullable (ColumnVector Int32T [150; 0]) [0; 1]) /\
  deserializeAndInsertFromArena (ColumnNullable (ColumnVector Int32T [150]) [0]) [1; 9]
  = Normal (ColumnNullable (ColumnVector Int32T [150; 0]) [0; 1], [9]).
Proof.
  split; [reflexivity|].
  pose proof (ColumnNullable_null_row_extends_nested
                (ColumnVector Int32T [150]) [0] 0 1 [9] eq_refl) as (H1 & _ & H3 & _).
  split; [exact H1 | apply H3; discriminate].
Defined.

(** C10, counterexample: deserializing an encoding whose null byte is 2
    appends a null row whose null-map byte is 2, not 1. *)
Lemma deserialized_null_byte_is_not_1 :
  deserializeAndInsertFromArena (ColumnNullable (ColumnVector Int32T []) []) [2]
  = Normal (ColumnNullable (ColumnVector Int32T [0]) [2], []) /\
  isNullAt (ColumnNullable (ColumnVector Int32T [0]) [2]) 0 = true /\
  at_ [2] 0 <> 1.
Proof. repeat split; discriminate. Qed.

(** ** Filtering *)

(** The rows a mask keeps, said without the loop: the rows paired with a
    nonzero mask byte, in their order. *)
Definition keptRows {A} (filt : list Z) (l : list A) : list A :=
  map fst (List.filter (fun p => negb (snd p =? 0)) (combine l filt)).

Definition countNonzero (filt : list Z) : Z :=
  Z.of_nat (length (List.filter (fun f => negb (f =? 0)) filt)).

Lemma filter_loop_keptRows {A} filt (l : list A) : filter_loop filt l = keptRows filt l.
Proof.
  unfold keptRows. revert l. induction filt as [|f filt IH]; intros [|x l]; try reflexivity.
  cbn [filter_loop combine List.filter snd]. destruct (negb (f =? 0)); cbn; now rewrite IH.
Qed.

Lemma countBytesInFilter_countNonzero filt : countBytesInFilter filt = countNonzero filt.
Proof.
  unfold countNonzero. induction filt as [|f filt IH]; [reflexivity|].
  cbn [countBytesInFilter List.filter]. rewrite IH.
  destruct (f =? 0); cbn [negb length]; lia.
Qed.

Lemma length_filter_loop {A} filt (l : list A) :
  length filt = length l -> Z.of_nat (length (filter_loop filt l)) = countBytesInFilter filt.
Proof.
  revert l. induction filt as [|f filt IH]; intros [|x l] H; try discriminate; [reflexivity|].
  cbn [filter_loop countBytesInFilter]. injection H as H. specialize (IH l H).
  destruct (f =? 0); cbn [negb length]; lia.
Qed.

Lemma filter_loop_map {A B} (g : A -> B) filt (l : list A) :
  filter_loop filt (map g l) = map g (filter_loop filt l).
Proof.
  revert l. induction filt as [|f filt IH]; intros [|x l]; try reflexivity.
  cbn [filter_loop map]. destruct (negb (f =? 0)); cbn [map]; now rewrite IH.
Qed.

Lemma filter_loop_replicate {A} filt (v : A) :
  filter_loop filt (replicate (length filt) v)
  = replicate (Z.to_nat (countBytesInFilter filt)) v.
Proof.
  induction filt as [|f filt IH]; [reflexivity|].
  cbn [length replicate filter_loop countBytesInFilter].
  assert (0 <= countBytesInFilter filt)
    by (rewrite countBytesInFilter_countNonzero; unfold countNonzero; lia).
  destruct (f =? 0); cbn [negb].
  - now rewrite IH.
  - replace (Z.to_nat (1 + countBytesInFilter filt))
      with (S (Z.to_nat (countBytesInFilter filt))) by lia.
    cbn [replicate]. now rewrite IH.
Qed.

Lemma filter_loop_zip_with {A B C} (g : A -> B -> C) filt (l1 : list A) (l2 : list B) :
  filter_loop filt (zip_with g l1 l2)
  = zip_with g (filter_loop filt l1) (filter_loop filt l2).
Proof.
  revert l1 l2. induction filt as [|f filt IH]; intros [|x l1] [|y l2]; try reflexivity.
  - cbn. now destruct (filter_loop _ _), (negb _).
  - cbn [filter_loop zip_with]. destruct (negb (f =? 0)); cbn [zip_with]; now rewrite IH.
Qed.

(** The rows of a nullable column: those of the nested column, with the
    rows whose null-map byte is nonzero replaced by Null. *)
Definition maskNull (row : Field) (byte : Z) : Field :=
  if byte =? 0 then row else Null.

Lemma rows_ColumnNullable nested null_map :
  Z.of_nat (length null_map) = size nested ->
  rows (ColumnNullable nested null_map) = zip_with maskNull (rows nested) null_map.
Proof.
  intros Hlen. unfold rows. cbn [size]. unfold ColumnNullable_size.
  rewrite <- Hlen, Nat2Z.id.
  apply list_eq. intros i.
  rewrite list_lookup_fmap, lookup_zip_with, list_lookup_fmap.
  destruct (decide (i < length null_map)%nat) as [Hi|Hi].
  - rewrite lookup_seq_lt by assumption. cbn. unfold ColumnNullable_isNullAt.
    destruct (lookup_lt_is_Some_2 null_map i Hi) as [b Hb]. rewrite Hb. cbn.
    unfold at_. rewrite (nth_lookup_Some _ _ _ _ Hb). unfold maskNull.
    now destruct (b =? 0).
  - rewrite lookup_seq_ge by lia. reflexivity.
Qed.

Lemma filter_rows c :
  wf c = true ->
  forall filt hint,
    (size c <> Z.of_nat (length filt) ->
     filter c filt hint = Throw SIZES_OF_COLUMNS_DOESNT_MATCH) /\
    (size c = Z.of_nat (length filt) ->
     exists r, filter c filt hint = Normal r /\
       size r = countBytesInFilter filt /\
       rows r = filter_loop filt (rows c) /\
       (canBeInsideNullable c = true -> canBeInsideNullable r = true) /\
       (forall data s, c = ColumnConst data s ->
          r = ColumnConst data (countBytesInFilter filt))).
Proof.
  induction c as [T d|T sc d|data IH s|nested IH nm]; intros Hwf filt hint;
    cbn [wf size filter] in *; open_members.
  - destruct (Nat.eqb_spec (length d) (length filt)) as [E|E]; cbn [negb bindR];
      (split; intros H; [try lia; reflexivity|try lia]).
    eexists. split; [reflexivity|]. cbn [size].
    rewrite length_filter_loop, !rows_ColumnVector, filter_loop_map by auto.
    repeat split. intros ? ? [=].
  - destruct (Nat.eqb_spec (length d) (length filt)) as [E|E]; cbn [negb];
      (split; intros H; [try lia; reflexivity|try lia]).
    eexists. split; [reflexivity|]. cbn [size]. open_members.
    rewrite length_filter_loop, !rows_ColumnDecimal, filter_loop_map by auto.
    repeat split. intros ? ? [=].
  - split_bool.
    destruct (Z.eqb_spec s (Z.of_nat (length filt))) as [E|E]; cbn [negb];
      (split; intros H'; [try lia; reflexivity|try lia]).
    assert (Hc : ColumnConst_create data (countBytesInFilter filt)
                 = Normal (ColumnConst data (countBytesInFilter filt))).
    { destruct data; cbn in *; try discriminate;
        match goal with Hs : _ = 1 |- _ => rewrite Hs end; reflexivity. }
    eexists. split; [exact Hc|]. cbn [size canBeInsideNullable].
    rewrite !rows_ColumnConst, E, Nat2Z.id, filter_loop_replicate.
    repeat split; try discriminate. now intros ? ? [= <- _].
  - split_bool.
    destruct (IH ltac:(assumption) filt hint) as [IHbad IHok].
    split; intros Hsz.
    + now rewrite IHbad.
    + destruct (IHok Hsz) as (r & Hr & Hrsz & Hrows & Hleaf & _).
      rewrite Hr. cbn [bindR].
      destruct (Nat.eqb_spec (length nm) (length filt)) as [E|E]; [|lia]. cbn [negb bindR].
      specialize (Hleaf ltac:(assumption)).
      unfold ColumnNullable_create, ColumnNullable_ctor.
      assert (Hfull : convertToFullColumnIfConst r = Normal r)
        by (destruct r; cbn in Hleaf; open_members; try discriminate; reflexivity).
      rewrite Hfull. cbn [bindR]. rewrite Hleaf. cbn [negb].
      eexists. split; [reflexivity|]. cbn [size canBeInsideNullable]. open_members.
      split; [assumption|]. split.
      * rewrite !rows_ColumnNullable, filter_loop_zip_with, Hrows; try reflexivity; try lia.
        rewrite length_filter_loop by auto. lia.
      * split; [discriminate|]. intros ? ? [=].
Qed.

(** C5. Filtering a column by a mask of another length throws the
    size-mismatch error; by a mask of its length it gives a column with one
    row per nonzero mask byte, holding the rows of the column at these
    positions in their order; a constant column gives the constant column
    over the same data whose count is the number of nonzero bytes. *)
Theorem filter_keeps_masked_rows (c : IColumn) (filt : list Z) (result_size_hint : Z) :
  wf c = true ->
  (size c <> Z.of_nat (length filt) ->
   filter c filt result_size_hint = Throw SIZES_OF_COLUMNS_DOESNT_MATCH) /\
  (size c = Z.of_nat (length filt) ->
   exists r, filter c filt result_size_hint = Normal r /\
     size r = countNonzero filt /\
     rows r = keptRows filt (rows c) /\
     (forall data s, c = ColumnConst data s -> r = ColumnConst data (countNonzero filt))).
Proof.
  intros Hwf. destruct (filter_rows c Hwf filt result_size_hint) as [Hbad Hok].
  split; [exact Hbad|]. intros Hsz.
  destruct (Hok Hsz) as (r & Hr & Hrsz & Hrows & _ & Hconst).
  exists r. rewrite <- countBytesInFilter_countNonzero, <- filter_loop_keptRows. auto.
Qed.

Lemma filter_keeps_masked_rows_witness :
  wf (ColumnNullable (ColumnDecimal Int32T 2 [150; 0; -275]) [0; 1; 0]) = true /\
  filter (ColumnNullable (ColumnDecimal Int32T 2 [150; 0; -275]) [0; 1; 0]) [1; 0] 0
  = Throw SIZES_OF_COLUMNS_DOESNT_MATCH /\
  exists r, filter (ColumnNullable (ColumnDecimal Int32T 2 [150; 0; -275]) [0; 1; 0]) [0; 1; 255] 0
            = Normal r /\
            rows r = [Null; DecimalField (-275) 2].
Proof.
  split; [reflexivity|].
  pose proof (filter_keeps_masked_rows
                (ColumnNullable (ColumnDecimal Int32T 2 [150; 0; -275]) [0; 1; 0])
                [1; 0] 0 eq_refl) as [Hbad _].
  pose proof (filter_keeps_masked_rows
                (ColumnNullable (ColumnDecimal Int32T 2 [150; 0; -275]) [0; 1; 0])
                [0; 1; 255] 0 eq_refl) as [_ Hok].
  split; [apply Hbad; discriminate|].
  destruct (Hok eq_refl) as (r & Hr & _ & Hrows & _).
  exists r. split; [exact Hr | exact Hrows].
Defined.

(** ** Comparison of decimals *)

(** C4. [ColumnDecimal::compareAt] on columns of one scale compares the raw
    values three ways; on columns of different scales it asks the
    decimal-comparison primitive, both ways round, and never compares the
    raw values; with the primitive rescaling as the spec says, raw 150 at
    scale 2 and raw 1500 at scale 3 compare equal. *)
Theorem ColumnDecimal_compareAt_rescales :
  (forall decimal_less T T' scale scale' data data' n m hint,
     let a := at_ data n in
     let b := at_ data' m in
     ColumnDecimal_compareAt decimal_less (ColumnDecimal T scale data) n m
       (ColumnDecimal T' scale' data') hint
     = Normal (if (scale =? scale')%nat
               then match a ?= b with Gt => 1 | Lt => -1 | Eq => 0 end
               else if decimal_less b a scale' scale then 1
                    else if decimal_less a b scale scale' then -1 else 0)) /\
  (forall x y x_scale y_scale,
     decimalLess x y x_scale y_scale = true <->
     x * 10 ^ Z.of_nat y_scale < y * 10 ^ Z.of_nat x_scale) /\
  (forall hint,
     ColumnDecimal_compareAt decimalLess (ColumnDecimal Int32T 2 [150]) 0 0
       (ColumnDecimal Int32T 3 [1500]) hint = Normal 0) /\
  (150 ?= 1500) = Lt.
Proof.
  split; [|split; [|split; reflexivity]].
  - intros. cbn [ColumnDecimal_compareAt]. subst a b.
    destruct (scale =? scale')%nat; [|reflexivity].
    rewrite Z.gtb_ltb. destruct (Z.compare_spec (at_ data n) (at_ data' m)) as [E|L|G].
    + rewrite E, Z.ltb_irrefl. reflexivity.
    + destruct (Z.ltb_spec (at_ data' m) (at_ data n)); [lia|].
      destruct (Z.ltb_spec (at_ data n) (at_ data' m)); [reflexivity|lia].
    + destruct (Z.ltb_spec (at_ data' m) (at_ data n)); [reflexivity|lia].
  - intros x y xs ys. unfold decimalLess.
    destruct (Nat.ltb_spec xs ys) as [L|L]; rewrite Z.ltb_lt.
    + assert (E : 10 ^ Z.of_nat ys = 10 ^ Z.of_nat (ys - xs) * 10 ^ Z.of_nat xs).
      { rewrite <- Z.pow_add_r by lia. f_equal. lia. }
      rewrite E.
      assert (0 < 10 ^ Z.of_nat xs) by (apply Z.pow_pos_nonneg; lia).
      split; intros H'; nia.
    + assert (E : 10 ^ Z.of_nat xs = 10 ^ Z.of_nat (xs - ys) * 10 ^ Z.of_nat ys).
      { rewrite <- Z.pow_add_r by lia. f_equal. lia. }
      rewrite E.
      assert (0 < 10 ^ Z.of_nat ys) by (apply Z.pow_pos_nonneg; lia).
      split; intros H'; nia.
Qed.

End ColumnFacts.

(** * Facts about the null-skipping adapter *)

Module AggregateFacts.

Import Columns Aggregate ColumnFacts.
Local Open Scope Z_scope.

(** ** The null-skipping adapter *)

Section AdapterFacts.

Variable result_is_nullable : bool.
Variable F : IAggregateFunction.

(** What a batch of [add] calls leaves: the flag is set when some row of the
    batch is not null, and the nested state has seen exactly the rows that
    are not null, in their order. *)
Definition afterRows (column nested_column : IColumn) (rows_seen : list nat)
  (place : NullPlace F) : NullPlace F :=
  let not_null := List.filter (fun i => negb (isNullAt column i)) rows_seen in
  {| flag := if result_is_nullable && negb (Nat.eqb (length not_null) 0) then 1
             else flag place;
     nestedPlace := fold_left (fun state i => add F state [nested_column] i) not_null
                      (nestedPlace place) |}.

Lemma NullUnary_add_step nested null_map tl place row_num :
  NullUnary_add result_is_nullable F place (ColumnNullable nested null_map :: tl) row_num
  = Normal (afterRows (ColumnNullable nested null_map) nested [row_num] place).
Proof.
  unfold NullUnary_add, afterRows. cbn [List.filter].
  destruct (isNullAt (ColumnNullable nested null_map) row_num); cbn [negb length fold_left].
  - rewrite andb_false_r. now destruct place.
  - rewrite andb_true_r. unfold setFlag. now destruct result_is_nullable.
Qed.

Lemma afterRows_app column nested l1 l2 place :
  afterRows column nested l2 (afterRows column nested l1 place)
  = afterRows column nested (l1 ++ l2) place.
Proof.
  unfold afterRows. cbn [flag nestedPlace].
  rewrite List.filter_app, fold_left_app, length_app. f_equal.
  destruct result_is_nullable; cbn [andb]; [|reflexivity].
  destruct (List.filter _ l1), (List.filter _ l2); reflexivity.
Qed.

Lemma addBatchSinglePlace_from_rows nested null_map tl batch_size :
  forall i place,
    addBatchSinglePlace_from result_is_nullable F i batch_size place
      (ColumnNullable nested null_map :: tl)
    = Normal (afterRows (ColumnNullable nested null_map) nested (seq i batch_size) place).
Proof.
  induction batch_size as [|n IH]; intros i place.
  - cbn. unfold afterRows. cbn. rewrite andb_false_r. now destruct place.
  - cbn [addBatchSinglePlace_from seq]. rewrite NullUnary_add_step. cbn [bindR].
    rewrite IH, afterRows_app. reflexivity.
Qed.

End AdapterFacts.

(** C7. [AggregateFunctionNullUnary::add] returns the place as it was when
    the row is null, and otherwise sets the flag and gives the nested
    function the row of the nested column; a batch of [add] calls so feeds
    the nested function exactly the rows that are not null. With
    [result_is_nullable], [insertResultInto] appends a null row when the
    flag is 0 and otherwise the nested result with null-map byte 0. Over
    [1, null, 3] the wrapped count is 2, as the count over two rows; over
    three nulls the result row is null. *)
Theorem NullUnary_feeds_only_non_null_rows
  (result_is_nullable : bool) (F : IAggregateFunction) (place : NullPlace F)
  (nested : IColumn) (null_map : list Z) (tl : list IColumn) (row_num batch_size : nat)
  (to_nested : IColumn) (to_null_map : list Z) :
  let column := ColumnNullable nested null_map in
  let to := ColumnNullable to_nested to_null_map in
  (isNullAt column row_num = true ->
   NullUnary_add result_is_nullable F place (column :: tl) row_num = Normal place) /\
  (isNullAt column row_num = false ->
   NullUnary_add result_is_nullable F place (column :: tl) row_num
   = Normal {| flag := if result_is_nullable then 1 else flag place;
               nestedPlace := add F (nestedPlace place) [nested] row_num |}) /\
  addBatchSinglePlace result_is_nullable F batch_size place (column :: tl)
  = Normal (afterRows result_is_nullable F column nested (seq 0 batch_size) place) /\
  (flag place = 0 ->
   NullBase_insertResultInto true F place to
   = Normal (ColumnNullable (insertDefault to_nested) (to_null_map ++ [1])) /\
   isNullAt (ColumnNullable (insertDefault to_nested) (to_null_map ++ [1]))
     (length to_null_map) = true) /\
  (flag place <> 0 ->
   NullBase_insertResultInto true F place to
   = (do nested_result <- insertResultInto F (nestedPlace place) to_nested ;
      Normal (ColumnNullable nested_result (to_null_map ++ [0])))) /\
  (forall garbage,
     let fresh := NullBase_create true AggregateFunctionCount garbage in
     let empty := ColumnNullable (ColumnVector UInt64T []) [] in
     addBatchSinglePlace true AggregateFunctionCount 3 fresh
       [ColumnNullable (ColumnVector Int64T [1; 0; 3]) [0; 1; 0]]
     = Normal {| flag := 1; nestedPlace := (2 : Data AggregateFunctionCount) |} /\
     add AggregateFunctionCount
       (add AggregateFunctionCount (create AggregateFunctionCount)
          [ColumnVector Int64T [1; 3]] 0)
       [ColumnVector Int64T [1; 3]] 1 = (2 : Data AggregateFunctionCount) /\
     NullBase_insertResultInto true AggregateFunctionCount
       {| flag := 1; nestedPlace := (2 : Data AggregateFunctionCount) |} empty
     = Normal (ColumnNullable (ColumnVector UInt64T [2]) [0]) /\
     (do place' <- addBatchSinglePlace true AggregateFunctionCount 3 fresh
                     [ColumnNullable (ColumnVector Int64T [0; 0; 0]) [1; 1; 1]] ;
      NullBase_insertResultInto true AggregateFunctionCount place' empty)
     = Normal (ColumnNullable (ColumnVector UInt64T [0]) [1])).
Proof.
  cbv zeta. split; [|split; [|split; [|split; [|split]]]].
  - intros H. rewrite NullUnary_add_step. unfold afterRows. cbn [List.filter].
    rewrite H. cbn. rewrite andb_false_r. now destruct place.
  - intros H. rewrite NullUnary_add_step. unfold afterRows. cbn [List.filter].
    rewrite H. cbn. now rewrite andb_true_r.
  - apply addBatchSinglePlace_from_rows.
  - intros H. unfold NullBase_insertResultInto, getFlag. rewrite H. cbn.
    split; [reflexivity|]. unfold ColumnNullable_isNullAt. now rewrite at_app_length.
  - intros H. unfold NullBase_insertResultInto, getFlag.
    now destruct (Z.eqb_spec (flag place) 0).
  - intros [garbage_flag garbage_state]. repeat split.
Qed.

End AggregateFacts.

(** * Facts about the permutation of a nullable column *)

Module PermutationFacts.

Import Columns NullablePermutation.

Lemma nth_middle_app {A} (l1 l2 : list A) (x d : A) : nth (length l1) (l1 ++ x :: l2) d = x.
Proof. rewrite app_nth2 by lia. now rewrite Nat.sub_diag. Qed.

Lemma insert_middle_app {A} (l1 l2 : list A) (x y : A) :
  <[length l1 := y]> (l1 ++ x :: l2) = l1 ++ y :: l2.
Proof. rewrite insert_app_r_alt by lia. now rewrite Nat.sub_diag. Qed.

(** Swapping the first entry of a block with the entry right behind the
    block moves the block one place on. *)
Lemma swap_block (A N R : list nat) (n0 r : nat) :
  swap (A ++ (n0 :: N) ++ r :: R) (length A + length (n0 :: N)) (length A)
  = (A ++ [r]) ++ (N ++ [n0]) ++ R.
Proof.
  unfold swap.
  replace (A ++ (n0 :: N) ++ r :: R) with ((A ++ n0 :: N) ++ r :: R)
    by (now rewrite <- app_assoc).
  replace (length A + length (n0 :: N)) with (length (A ++ n0 :: N))
    by (now rewrite length_app).
  rewrite nth_middle_app.
  rewrite <- (app_assoc A (n0 :: N) (r :: R)). cbn [app].
  rewrite nth_middle_app, insert_middle_app.
  replace (A ++ r :: N ++ r :: R) with ((A ++ r :: N) ++ r :: R)
    by (now rewrite <- app_assoc).
  replace (length (A ++ n0 :: N)) with (length (A ++ r :: N))
    by (now rewrite !length_app).
  rewrite insert_middle_app. rewrite <- !app_assoc. reflexivity.
Qed.

(** Swapping the last entry of a block with the entry right before the
    block moves the block one place back. *)
Lemma swap_block_back (R N A : list nat) (r n0 : nat) :
  swap (R ++ r :: (N ++ [n0]) ++ A) (length R) (length R + length (N ++ [n0]))
  = R ++ (n0 :: N) ++ r :: A.
Proof.
  unfold swap.
  rewrite nth_middle_app.
  replace (R ++ r :: (N ++ [n0]) ++ A) with ((R ++ r :: N) ++ n0 :: A)
    by (now rewrite <- !app_assoc).
  replace (length R + length (N ++ [n0])) with (length (R ++ r :: N))
    by (rewrite !length_app; cbn [length]; lia).
  rewrite nth_middle_app, insert_middle_app.
  rewrite <- app_assoc. cbn [app]. rewrite insert_middle_app. reflexivity.
Qed.

Section Partition.

Variable null_map : list Z.

(** The row [v] is null. *)
Definition nullRow (v : nat) : bool := negb (at_ null_map v =? 0)%Z.

Definition notNullRow (v : nat) : bool := negb (nullRow v).

Lemma isNullRow_nth res idx : isNullRow null_map res idx = nullRow (nth idx res O).
Proof. reflexivity. Qed.

(** *** Nulls to the end *)

Lemma skip_forward_spec n :
  forall (A R : list nat),
    Forall (fun v => nullRow v = false) A -> n <= length R ->
    exists A' R',
      R = A' ++ R' /\ Forall (fun v => nullRow v = false) A' /\
      skip_forward null_map n (A ++ R) (length A) = length (A ++ A') /\
      (length A' < n -> exists v R'', R' = v :: R'' /\ nullRow v = true) /\
      length A' <= n.
Proof.
  induction n as [|n IH]; intros A R HA Hn.
  - exists [], R. cbn [skip_forward app length]. rewrite app_nil_r.
    repeat split; try constructor; try lia.
  - destruct R as [|r R]; [cbn in Hn; lia|].
    cbn [skip_forward]. rewrite isNullRow_nth, nth_middle_app.
    destruct (nullRow r) eqn:Hr; cbn [negb].
    + exists [], (r :: R). rewrite app_nil_r. cbn [app length].
      repeat split; try constructor; try lia. intros _. eauto.
    + destruct (IH (A ++ [r]) R) as (A' & R' & -> & HA' & Hskip & Hnull & Hlen).
      * apply Forall_app. split; [assumption|]. now constructor.
      * cbn in Hn. lia.
      * exists (r :: A'), R'. cbn [app length].
        rewrite <- app_assoc in Hskip. cbn [app] in Hskip.
        replace (S (length A)) with (length (A ++ [r])) by (rewrite length_app; cbn; lia).
        rewrite Hskip. rewrite !length_app. cbn [length].
        split; [reflexivity|]. split; [now constructor|]. split; [lia|].
        split; [|lia]. intros H. apply Hnull. lia.
Qed.

(** The loop that shifts nulls to the end, on an array made of the indices
    already written [A], a block of nulls [N] and the indices not yet read
    [R]: it ends on an array of the same shape, having read all of [R] or
    written [limit] indices. *)
Lemma shift_to_end_spec limit :
  forall (R A N : list nat) (n0 : nat),
    Forall (fun v => nullRow v = true) (n0 :: N) ->
    exists A' N' R',
      shift_to_end null_map (length R) (A ++ (n0 :: N) ++ R)
        (length A + length (n0 :: N)) (length A) limit
      = (A ++ A') ++ N' ++ R' /\
      Forall (fun v => nullRow v = false) A' /\
      Forall (fun v => nullRow v = true) N' /\
      List.filter notNullRow R = A' ++ List.filter notNullRow R' /\
      (n0 :: N) ++ R ≡ₚ A' ++ N' ++ R' /\
      (R' = [] \/ limit <= length (A ++ A')).
Proof.
  induction R as [|r R IH]; intros A N n0 HN.
  - exists [], (n0 :: N), []. cbn [length shift_to_end List.filter app].
    rewrite !app_nil_r. split; [reflexivity|]. split; [constructor|]. split; [assumption|].
    split; [reflexivity|]. split; [reflexivity|]. now left.
  - change (length (r :: R)) with (S (length R)). cbn [shift_to_end].
    destruct (Nat.ltb_spec (length A) limit) as [Hroom|Hfull].
    + rewrite isNullRow_nth.
      replace (A ++ (n0 :: N) ++ r :: R) with ((A ++ n0 :: N) ++ r :: R)
        by (now rewrite <- app_assoc).
      replace (length A + length (n0 :: N)) with (length (A ++ n0 :: N))
        by (now rewrite length_app).
      rewrite nth_middle_app.
      destruct (nullRow r) eqn:Hr; cbn [negb].
      * destruct (IH A (N ++ [r]) n0) as (A' & N' & R' & Hout & HA' & HN' & Hfilter & Hperm & Hend).
        { change (n0 :: N ++ [r]) with ((n0 :: N) ++ [r]). apply Forall_app.
          split; [assumption|]. now constructor. }
        exists A', N', R'.
        replace (S (length (A ++ n0 :: N))) with (length A + length (n0 :: N ++ [r]))
          by (rewrite !length_app; cbn [length]; rewrite length_app; cbn [length]; lia).
        replace ((A ++ n0 :: N) ++ r :: R) with (A ++ (n0 :: N ++ [r]) ++ R)
          by (rewrite <- !app_assoc; cbn [app]; now rewrite <- app_assoc).
        split; [assumption|]. split; [assumption|]. split; [assumption|].
        split; [|split; [|assumption]].
        -- cbn [List.filter]. unfold notNullRow at 1. rewrite Hr. cbn [negb]. assumption.
        -- rewrite <- Hperm. cbn [app]. rewrite <- app_assoc. reflexivity.
      * replace ((A ++ n0 :: N) ++ r :: R) with (A ++ (n0 :: N) ++ r :: R)
          by (now rewrite <- app_assoc).
        replace (length (A ++ n0 :: N)) with (length A + length (n0 :: N))
          by (now rewrite length_app).
        rewrite swap_block.
        destruct (N ++ [n0]) as [|n1 N1] eqn:EN; [destruct N; discriminate|].
        assert (HN1 : Forall (fun v => nullRow v = true) (n1 :: N1)).
        { rewrite <- EN. apply Forall_app. inversion HN; subst. split; [assumption|].
          now constructor. }
        destruct (IH (A ++ [r]) N1 n1 HN1) as (A' & N' & R' & Hout & HA' & HN' & Hfilter & Hperm & Hend).
        exists (r :: A'), N', R'.
        replace (S (length A + length (n0 :: N))) with (length (A ++ [r]) + length (n1 :: N1))
          by (rewrite <- EN, !length_app; cbn [length]; lia).
        replace (S (length A)) with (length (A ++ [r])) by (rewrite length_app; cbn; lia).
        rewrite Hout. rewrite <- !app_assoc. cbn [app].
        split; [reflexivity|]. split; [now constructor|]. split; [assumption|].
        split; [|split].
        -- cbn [List.filter]. unfold notNullRow at 1. rewrite Hr. cbn [negb app]. now f_equal.
        -- transitivity (r :: (n0 :: N) ++ R); [symmetry; apply Permutation_middle|].
           cbn [app]. apply perm_skip. rewrite <- Hperm, <- EN.
           change (n0 :: N ++ R) with ((n0 :: N) ++ R).
           apply Permutation_app_tail, Permutation_cons_append.
        -- destruct Hend as [->|Hlim]; [now left|right].
           rewrite <- app_assoc in Hlim. exact Hlim.
    + exists [], (n0 :: N), (r :: R). rewrite app_nil_r.
      split; [reflexivity|]. split; [constructor|]. split; [assumption|].
      split; [reflexivity|]. split; [reflexivity|]. now right.
Qed.

Lemma shift_to_end_full n res read_idx write_idx limit :
  limit <= write_idx -> shift_to_end null_map n res read_idx write_idx limit = res.
Proof.
  intros H. destruct n as [|n]; [reflexivity|]. cbn [shift_to_end].
  destruct (Nat.ltb_spec write_idx limit); [lia|reflexivity].
Qed.

Lemma filter_all_notNull (l : list nat) :
  Forall (fun v => nullRow v = false) l -> List.filter notNullRow l = l.
Proof.
  induction 1 as [|v l Hv _ IH]; [reflexivity|].
  cbn [List.filter]. unfold notNullRow at 1. rewrite Hv. cbn [negb]. now rewrite IH.
Qed.

Lemma filter_all_null (l : list nat) :
  Forall (fun v => nullRow v = true) l -> List.filter notNullRow l = [].
Proof.
  induction 1 as [|v l Hv _ IH]; [reflexivity|].
  cbn [List.filter]. unfold notNullRow at 1. rewrite Hv. cbn [negb]. exact IH.
Qed.

(** The branch that shifts nulls to the end, as a whole. *)
Lemma nulls_to_end_shape (res : list nat) (limit : nat) :
  limit <= length res ->
  let read_idx := skip_forward null_map limit res O in
  exists A N R,
    shift_to_end null_map (length res - S read_idx) res (S read_idx) read_idx limit
    = A ++ N ++ R /\
    Forall (fun v => nullRow v = false) A /\
    Forall (fun v => nullRow v = true) N /\
    List.filter notNullRow res = A ++ List.filter notNullRow R /\
    res ≡ₚ A ++ N ++ R /\
    (R = [] \/ limit <= length A).
Proof.
  intros Hlim. cbv zeta.
  destruct (skip_forward_spec limit [] res ltac:(constructor) Hlim)
    as (A1 & R1 & -> & HA1 & Hskip & Hnull & Hlen).
  cbn [app length] in Hskip. rewrite Hskip.
  destruct (Nat.lt_ge_cases (length A1) limit) as [Hlt|Hge].
  - destruct (Hnull Hlt) as (v & R2 & -> & Hv).
    destruct (shift_to_end_spec limit R2 A1 [] v ltac:(now repeat constructor))
      as (A' & N' & R' & Hout & HA' & HN' & Hfilter & Hperm & Hend).
    exists (A1 ++ A'), N', R'.
    replace (length (A1 ++ v :: R2) - S (length A1)) with (length R2)
      by (rewrite length_app; cbn [length]; lia).
    replace (S (length A1)) with (length A1 + length [v]) by (cbn [length]; lia).
    change (A1 ++ v :: R2) with (A1 ++ [v] ++ R2).
    split; [assumption|]. split; [now apply Forall_app|]. split; [assumption|].
    split; [|split; [|assumption]].
    + rewrite List.filter_app. cbn [app List.filter]. unfold notNullRow at 2. rewrite Hv.
      cbn [negb]. rewrite Hfilter, filter_all_notNull by assumption. now rewrite app_assoc.
    + rewrite <- app_assoc. apply Permutation_app_head. exact Hperm.
  - exists A1, [], R1. rewrite shift_to_end_full by lia. cbn [app].
    split; [reflexivity|]. split; [assumption|]. split; [constructor|].
    split; [|split; [reflexivity|right; lia]].
    rewrite List.filter_app. now rewrite filter_all_notNull.
Qed.

(** *** Nulls to the beginning *)

Lemma skip_backward_spec n :
  forall (R A : list nat),
    Forall (fun v => nullRow v = false) A -> n <= length R ->
    exists R' A',
      R = R' ++ A' /\ Forall (fun v => nullRow v = false) A' /\
      skip_backward null_map n (R ++ A) (Z.of_nat (length R) - 1)
      = (Z.of_nat (length R') - 1)%Z /\
      (length A' < n -> exists R'' v, R' = R'' ++ [v] /\ nullRow v = true).
Proof.
  induction n as [|n IH]; intros R A HA Hn.
  - exists R, []. rewrite app_nil_r. cbn [skip_backward length].
    split; [reflexivity|]. split; [constructor|]. split; [reflexivity|]. lia.
  - destruct (exists_last (l := R)) as (R0 & r & ->).
    { intros ->. cbn in Hn. lia. }
    cbn [skip_backward]. rewrite isNullRow_nth.
    rewrite length_app in *. cbn [length] in *.
    replace (Z.to_nat (Z.of_nat (length R0 + 1) - 1)) with (length R0) by lia.
    rewrite <- app_assoc. cbn [app]. rewrite nth_middle_app.
    destruct (nullRow r) eqn:Hr; cbn [negb].
    + exists (R0 ++ [r]), []. rewrite app_nil_r, length_app. cbn [length].
      split; [reflexivity|]. split; [constructor|]. split; [reflexivity|]. eauto.
    + destruct (IH R0 (r :: A)) as (R' & A' & -> & HA' & Hskip & Hnull).
      * now constructor.
      * lia.
      * exists R', (A' ++ [r]). rewrite <- !app_assoc in *.
        split; [reflexivity|]. split; [apply Forall_app; split; [assumption|now constructor]|].
        split.
        -- replace (Z.of_nat (length (R' ++ A') + 1) - 1 - 1)%Z
             with (Z.of_nat (length (R' ++ A')) - 1)%Z by lia.
           exact Hskip.
        -- rewrite length_app. cbn [length]. intros H. apply Hnull. lia.
Qed.

(** The loop that shifts nulls to the beginning, on an array made of the
    indices not yet read [R], a block of nulls and the indices already
    written [A]: it ends with the nulls before the indices of [R] that are
    not null, these in their order. *)
Lemma shift_to_begin_spec :
  forall (R N A : list nat) (n0 : nat),
    Forall (fun v => nullRow v = true) (N ++ [n0]) ->
    exists N',
      shift_to_begin null_map (length R) (R ++ (N ++ [n0]) ++ A)
        (Z.of_nat (length R) - 1) (Z.of_nat (length R + length (N ++ [n0])) - 1)
      = N' ++ List.filter notNullRow R ++ A /\
      Forall (fun v => nullRow v = true) N' /\
      R ++ N ++ [n0] ≡ₚ N' ++ List.filter notNullRow R.
Proof.
  induction R as [|r R IH] using rev_ind; intros N A n0 HN.
  - exists (N ++ [n0]). cbn [length shift_to_begin List.filter app].
    split; [reflexivity|]. split; [assumption|]. now rewrite app_nil_r.
  - rewrite length_app. cbn [length]. rewrite Nat.add_1_r. cbn [shift_to_begin].
    destruct (Z.leb_spec 0 (Z.of_nat (S (length R) + length (N ++ [n0])) - 1)) as [_|?]; [|lia].
    rewrite isNullRow_nth.
    replace (Z.to_nat (Z.of_nat (S (length R)) - 1)) with (length R) by lia.
    rewrite <- (app_assoc R [r]). cbn [app]. rewrite nth_middle_app.
    replace (Z.of_nat (S (length R)) - 1 - 1)%Z with (Z.of_nat (length R) - 1)%Z by lia.
    destruct (nullRow r) eqn:Hr; cbn [negb].
    + destruct (IH (r :: N) A n0) as (N' & Hout & HN' & Hperm).
      { cbn [app]. now constructor. }
      exists N'.
      replace (Z.of_nat (S (length R) + length (N ++ [n0])) - 1)%Z
        with (Z.of_nat (length R + length ((r :: N) ++ [n0])) - 1)%Z
        by (cbn [app length]; lia).
      change (r :: (N ++ [n0]) ++ A) with (((r :: N) ++ [n0]) ++ A).
      rewrite Hout, List.filter_app. cbn [List.filter]. unfold notNullRow at 3 5.
      rewrite Hr. cbn [negb]. rewrite app_nil_r.
      split; [reflexivity|]. split; [assumption|].
      rewrite <- Hperm, <- !app_assoc. reflexivity.
    + replace (Z.to_nat (Z.of_nat (S (length R) + length (N ++ [n0])) - 1))
        with (length R + length (N ++ [n0])) by lia.
      rewrite swap_block_back.
      destruct (exists_last (l := n0 :: N)) as (N1 & n1 & EN); [discriminate|].
      assert (HN1 : Forall (fun v => nullRow v = true) (N1 ++ [n1])).
      { rewrite <- EN. apply Forall_app in HN. destruct HN as [HN Hn0].
        constructor; [now inversion Hn0|assumption]. }
      destruct (IH N1 (r :: A) n1 HN1) as (N' & Hout & HN' & Hperm).
      exists N'.
      replace (Z.of_nat (S (length R) + length (N ++ [n0])) - 1 - 1)%Z
        with (Z.of_nat (length R + length (N1 ++ [n1])) - 1)%Z
        by (rewrite <- EN, length_app; cbn [length]; lia).
      rewrite EN, Hout, List.filter_app. cbn [List.filter]. unfold notNullRow at 3 5.
      rewrite Hr. cbn [negb]. rewrite <- !app_assoc.
      split; [reflexivity|]. split; [assumption|].
      rewrite (app_assoc N'), <- Hperm, <- EN, <- !app_assoc. cbn [app].
      apply Permutation_app_head.
      transitivity (r :: N ++ [n0]); [reflexivity|].
      transitivity (n0 :: N ++ [r]); [|reflexivity].
      rewrite <- !Permutation_cons_append. apply perm_swap.
Qed.

Lemma nulls_to_begin_shape (res : list nat) :
  let read_idx := skip_backward null_map (Z.to_nat (Z.of_nat (length res) - 1 + 1)) res
                    (Z.of_nat (length res) - 1) in
  exists N,
    shift_to_begin null_map (Z.to_nat (read_idx - 1 + 1)) res (read_idx - 1) read_idx
    = N ++ List.filter notNullRow res /\
    Forall (fun v => nullRow v = true) N /\
    res ≡ₚ N ++ List.filter notNullRow res.
Proof.
  cbv zeta.
  replace (Z.to_nat (Z.of_nat (length res) - 1 + 1)) with (length res) by lia.
  destruct (skip_backward_spec (length res) res [] ltac:(constructor) ltac:(lia))
    as (R1 & A1 & E & HA1 & Hskip & Hnull).
  rewrite app_nil_r in Hskip. rewrite Hskip.
  replace (Z.to_nat (Z.of_nat (length R1) - 1 - 1 + 1)) with (length R1 - 1) by lia.
  destruct (Nat.lt_ge_cases (length A1) (length res)) as [Hlt|Hge].
  - destruct (Hnull Hlt) as (R2 & v & -> & Hv).
    destruct (shift_to_begin_spec R2 [] A1 v ltac:(now repeat constructor))
      as (N' & Hout & HN' & Hperm).
    exists N'. subst res. rewrite length_app. cbn [length].
    replace (length R2 + 1 - 1) with (length R2) by lia.
    replace (Z.of_nat (length R2 + 1) - 1 - 1)%Z with (Z.of_nat (length R2) - 1)%Z by lia.
    replace (Z.of_nat (length R2 + 1) - 1)%Z
      with (Z.of_nat (length R2 + length ([] ++ [v])) - 1)%Z by (cbn [app length]; lia).
    rewrite <- (app_assoc R2). change ([v] ++ A1) with (([] ++ [v]) ++ A1).
    rewrite Hout, !List.filter_app. cbn [app List.filter]. unfold notNullRow at 3 6.
    rewrite Hv. cbn [negb app]. rewrite (filter_all_notNull A1) by assumption.
    split; [reflexivity|]. split; [assumption|].
    rewrite (app_assoc N'), <- Hperm. cbn [app]. now rewrite <- !app_assoc.
  - assert (R1 = []) as ->.
    { apply (f_equal length) in E. rewrite length_app in E. destruct R1; [reflexivity|].
      cbn [length] in E. lia. }
    exists []. cbn [app length] in *. subst res. cbn [shift_to_begin app].
    rewrite filter_all_notNull by assumption.
    split; [reflexivity|]. split; [constructor|reflexivity].
Qed.

End Partition.

(** C3 (as the code has it). [ColumnNullable::getPermutation] asks the
    nested column for its full ordering (limit 0) and rearranges that array
    in one pass: the result is a permutation of it in which the rows that
    are not null keep their order. When [(null_direction_hint > 0) !=
    reverse] the nulls are shifted towards the end, and the pass stops once
    [limit] leading places hold rows that are not null: the leading places,
    up to [limit] and the number of rows that are not null, hold the first
    of these rows, and with no limit (0, or at least the size) all nulls
    are at the end. Otherwise all nulls are at the beginning, whatever
    [limit] is. *)
Theorem nullable_getPermutation_partitions
  (null_map : list Z) (nested_getPermutation : bool -> nat -> Z -> list nat)
  (reverse : bool) (limit : nat) (null_direction_hint : Z) :
  let res := nested_getPermutation reverse O null_direction_hint in
  let out := getPermutation null_map nested_getPermutation reverse limit null_direction_hint in
  let not_null := List.filter (notNullRow null_map) in
  (forall other_nested,
     other_nested reverse O null_direction_hint = res ->
     getPermutation null_map other_nested reverse limit null_direction_hint = out) /\
  out ≡ₚ res /\
  not_null out = not_null res /\
  (negb (Bool.eqb (0 <? null_direction_hint)%Z reverse) = true ->
   (let effective_limit :=
      if (limit =? 0)%nat then length res else Nat.min (length res) limit in
    let m := Nat.min effective_limit (length (not_null res)) in
    take m out = take m (not_null res)) /\
   (limit = O \/ length res <= limit ->
    exists nulls, out = not_null res ++ nulls /\
                  Forall (fun v => nullRow null_map v = true) nulls)) /\
  (negb (Bool.eqb (0 <? null_direction_hint)%Z reverse) = false ->
   exists nulls, out = nulls ++ not_null res /\
                 Forall (fun v => nullRow null_map v = true) nulls).
Proof.
  cbv zeta. unfold getPermutation.
  set (res := nested_getPermutation reverse O null_direction_hint).
  split; [intros other ->; reflexivity|].
  destruct (negb (Bool.eqb (0 <? null_direction_hint)%Z reverse)).
  - set (lim := if (limit =? 0)%nat then length res else Nat.min (length res) limit).
    assert (Hlim : lim <= length res) by (unfold lim; destruct (limit =? 0)%nat; lia).
    destruct (nulls_to_end_shape null_map res lim Hlim)
      as (A & N & R & Hout & HA & HN & Hfilter & Hperm & Hend).
    cbv zeta in Hout. rewrite Hout.
    assert (Hnn : List.filter (notNullRow null_map) (A ++ N ++ R)
                  = A ++ List.filter (notNullRow null_map) R).
    { rewrite !List.filter_app, filter_all_notNull, filter_all_null by assumption.
      reflexivity. }
    split; [now symmetry|]. split; [now rewrite Hnn|]. split; [|discriminate].
    intros _. split.
    + rewrite Hfilter. destruct Hend as [->|Hfull].
      * cbn [List.filter]. rewrite !app_nil_r.
        rewrite take_app_le by lia. reflexivity.
      * rewrite !take_app_le by lia. reflexivity.
    + intros Hno. assert (lim = length res) as Hall.
      { unfold lim. destruct Hno as [->|Hge]; [reflexivity|].
        destruct (limit =? 0)%nat; lia. }
      assert (R = []) as ->.
      { destruct Hend as [|Hfull]; [assumption|].
        apply Permutation_length in Hperm. rewrite !length_app in Hperm.
        destruct R; [reflexivity|]. cbn [length] in Hperm. lia. }
      exists N. rewrite Hfilter. cbn [List.filter]. rewrite !app_nil_r. auto.
  - destruct (nulls_to_begin_shape null_map res) as (N & Hout & HN & Hperm).
    cbv zeta in Hout. rewrite Hout.
    split; [now symmetry|]. split; [|split; [discriminate|]].
    + rewrite List.filter_app, filter_all_null by assumption. cbn [app].
      apply filter_all_notNull. apply List.Forall_forall. intros v Hv.
      apply filter_In in Hv. destruct Hv as [_ Hv]. unfold notNullRow in Hv.
      now destruct (nullRow null_map v).
    + intros _. exists N. auto.
Qed.

(** C3, counterexample: rows 0 and 2 of five are null, the nested ordering
    is the identity, nulls go last and [limit] is 1. The pass stops after
    the first place: the null rows 0 and 2 stay before the rows 3 and 4,
    so the result is not the rows that are not null followed by the
    nulls. *)
Lemma limit_leaves_nulls_before_the_end :
  getPermutation [1; 0; 1; 0; 0]%Z (fun _ _ _ => [0; 1; 2; 3; 4]) false 1 1
  = [1; 0; 2; 3; 4] /\
  ~ (exists rows_not_null nulls,
       getPermutation [1; 0; 1; 0; 0]%Z (fun _ _ _ => [0; 1; 2; 3; 4]) false 1 1
       = rows_not_null ++ nulls /\
       Forall (fun v => nullRow [1; 0; 1; 0; 0]%Z v = false) rows_not_null /\
       Forall (fun v => nullRow [1; 0; 1; 0; 0]%Z v = true) nulls).
Proof.
  split; [reflexivity|].
  intros (nn & nl & E & Hnn & Hnl).
  change (getPermutation _ _ _ _ _) with [1; 0; 2; 3; 4] in E.
  destruct nn as [|a [|b nn]]; cbn [app] in E.
  - subst nl. apply Forall_cons in Hnl as [H1 _]. discriminate H1.
  - injection E as <- <-. apply Forall_cons in Hnl as [_ Hnl].
    apply Forall_cons in Hnl as [_ Hnl]. apply Forall_cons in Hnl as [H3 _]. discriminate H3.
  - injection E as <- <- _. apply Forall_cons in Hnn as [_ Hnn].
    apply Forall_cons in Hnn as [H0 _]. discriminate H0.
Qed.

End PermutationFacts.

(** * Facts about the hash table *)

Module HashTabFacts.

Import HashTab.

(** ** The grower *)

Lemma bufSize_pow g : bufSize g = 2 ^ size_degree g.
Proof. unfold bufSize. apply Nat.shiftl_1_l. Qed.

Lemma bufSize_pos g : 0 < bufSize g.
Proof. rewrite bufSize_pow. apply Nat.neq_0_lt_0, Nat.pow_nonzero. lia. Qed.

Lemma maxFill_pow g : maxFill g = 2 ^ (size_degree g - 1).
Proof. unfold maxFill. apply Nat.shiftl_1_l. Qed.

Lemma maxFill_half g : 1 <= size_degree g -> 2 * maxFill g = bufSize g.
Proof.
  intros H. rewrite maxFill_pow, bufSize_pow.
  replace (size_degree g) with (S (size_degree g - 1)) at 2 by lia.
  now rewrite Nat.pow_succ_r'.
Qed.

Lemma place_mod g x : place g x = x mod bufSize g.
Proof.
  unfold place, mask. rewrite bufSize_pow, <- Nat.land_ones.
  f_equal. rewrite Nat.ones_equiv. lia.
Qed.

Lemma next_mod g pos : next g pos = (pos + 1) mod bufSize g.
Proof. unfold next. apply place_mod. Qed.

Lemma place_lt g x : place g x < bufSize g.
Proof. rewrite place_mod. apply Nat.mod_upper_bound. pose proof (bufSize_pos g). lia. Qed.

Lemma increaseSize_bufSize g :
  1 <= size_degree g ->
  1 <= size_degree (increaseSize g) /\
  2 * bufSize g <= bufSize (increaseSize g) /\
  maxFill g + 1 < bufSize (increaseSize g) - bufSize g /\
  maxFill g + 1 <= maxFill (increaseSize g).
Proof.
  intros Hd. pose proof (maxFill_half g Hd) as Hh.
  assert (Hm : 1 <= maxFill g) by (rewrite maxFill_pow; apply Nat.neq_0_lt_0, Nat.pow_nonzero; lia).
  unfold increaseSize. destruct (Nat.leb_spec 23 (size_degree g)) as [L|L]; cbn [size_degree].
  - assert (E : bufSize {| size_degree := size_degree g + 1 |} = 2 * bufSize g).
    { rewrite !bufSize_pow. cbn [size_degree]. rewrite Nat.add_1_r. apply Nat.pow_succ_r'. }
    assert (E2 : maxFill {| size_degree := size_degree g + 1 |} = bufSize g).
    { rewrite maxFill_pow, bufSize_pow. cbn [size_degree]. f_equal. lia. }
    assert (4 <= maxFill g).
    { rewrite maxFill_pow. change 4 with (2 ^ 2). apply Nat.pow_le_mono_r; lia. }
    rewrite E, E2. lia.
  - assert (E : bufSize {| size_degree := size_degree g + 2 |} = 4 * bufSize g).
    { rewrite !bufSize_pow. cbn [size_degree].
      replace (size_degree g + 2) with (S (S (size_degree g))) by lia.
      rewrite !Nat.pow_succ_r'. lia. }
    assert (E2 : maxFill {| size_degree := size_degree g + 2 |} = 2 * bufSize g).
    { rewrite maxFill_pow, bufSize_pow. cbn [size_degree].
      replace (size_degree g + 2 - 1) with (S (size_degree g)) by lia.
      now rewrite Nat.pow_succ_r'. }
    rewrite E, E2. lia.
Qed.

(** ** Cells and probe paths

    All of this is about one buffer size [M] and the homes [hash k mod M]. *)

(** An occupied cell. *)
Definition occupiedAt (b : list Key) (x : nat) : Prop :=
  exists c, b !! x = Some c /\ c <> 0%Z.

(** A cell a probe for [k] walks past: occupied by another key. *)
Definition passes (b : list Key) (k : Key) (x : nat) : Prop :=
  exists c, b !! x = Some c /\ c <> 0%Z /\ c <> k.

(** The cells from [H] up to but not including [q], going round the end of
    the buffer when [q] is before [H]. *)
Definition onPath (H q x : nat) : Prop :=
  if decide (H <= q) then H <= x < q else H <= x \/ x < q.

(** The cells [(H + j) mod M] for [j < n]. *)
Lemma mod_offset M H j :
  H < M -> j < M -> (H + j) mod M = if decide (H + j < M) then H + j else H + j - M.
Proof.
  intros HH Hj. destruct (decide (H + j < M)) as [L|L].
  - now apply Nat.mod_small.
  - transitivity (((H + j - M) + 1 * M) mod M); [f_equal; lia|].
    rewrite Nat.Div0.mod_add. apply Nat.mod_small. lia.
Qed.

Lemma onPath_offsets M H n x :
  H < M -> n < M -> x < M ->
  onPath H ((H + n) mod M) x <-> exists j, j < n /\ x = (H + j) mod M.
Proof.
  intros HH Hn Hx. unfold onPath. rewrite (mod_offset M H n) by assumption.
  split.
  - intros Hp. destruct (decide (H + n < M)); destruct (decide _) as [L|L] in Hp; try lia.
    + exists (x - H). rewrite mod_offset by lia. destruct (decide _); lia.
    + destruct (decide (H <= x)).
      * exists (x - H). rewrite mod_offset by lia. destruct (decide _); lia.
      * exists (x + M - H). rewrite mod_offset by lia. destruct (decide _); lia.
  - intros (j & Hj & ->). rewrite (mod_offset M H j) by lia.
    repeat destruct (decide _); lia.
Qed.

Lemma offset_of M H x : H < M -> x < M -> exists j, j < M /\ x = (H + j) mod M.
Proof.
  intros HH Hx. destruct (decide (H <= x)).
  - exists (x - H). rewrite mod_offset by lia. destruct (decide _); lia.
  - exists (x + M - H). rewrite mod_offset by lia. destruct (decide _); lia.
Qed.

Lemma onPath_trichotomy M H q q' :
  H < M -> q < M -> q' < M -> q <> q' -> onPath H q q' \/ onPath H q' q.
Proof. unfold onPath. intros. repeat destruct (decide _); lia. Qed.

Lemma onPath_self H q : ~ onPath H q q.
Proof. unfold onPath. destruct (decide _); lia. Qed.

Lemma onPath_start H x : ~ onPath H H x.
Proof. unfold onPath. destruct (decide _); lia. Qed.

(** A cell at which a probe for [k] stops: empty or holding [k]. *)
Definition stopsAt (b : list Key) (k : Key) (x : nat) : Prop :=
  exists c, b !! x = Some c /\ (c = 0%Z \/ c = k).

Lemma passes_not_stopsAt b k x : passes b k x -> ~ stopsAt b k x.
Proof. intros (c & Hc & H0 & Hk) (c' & Hc' & Hs). rewrite Hc in Hc'. injection Hc' as <-. tauto. Qed.

Lemma passes_occupiedAt b k x : passes b k x -> occupiedAt b x.
Proof. intros (c & Hc & H0 & _). now exists c. Qed.

Section FindCell.

Variable hash : Key -> nat.
Variables (b : list Key) (g : Grower) (k : Key).
Hypothesis Hlen : length b = bufSize g.

Lemma findCell_loop_offsets H :
  H < bufSize g ->
  (exists x, stopsAt b k x) ->
  forall fuel n,
    n + fuel = bufSize g ->
    (forall j, j < n -> passes b k ((H + j) mod bufSize g)) ->
    exists m, n <= m < bufSize g /\
      findCell_loop fuel b g k ((H + n) mod bufSize g) = Normal ((H + m) mod bufSize g) /\
      (forall j, j < m -> passes b k ((H + j) mod bufSize g)) /\
      stopsAt b k ((H + m) mod bufSize g).
Proof using Hlen.
  intros HH [x Hx]. pose proof (bufSize_pos g) as Hpos.
  induction fuel as [|fuel IH]; intros n Hn Hpass.
  - exfalso. assert (Hxlt : x < bufSize g).
    { destruct Hx as (c & Hc & _). apply lookup_lt_Some in Hc. lia. }
    destruct (offset_of (bufSize g) H x HH Hxlt) as (j & Hj & Hxj).
    apply (passes_not_stopsAt b k x); [|assumption].
    rewrite Hxj. apply Hpass. lia.
  - cbn [findCell_loop].
    assert (Hp : (H + n) mod bufSize g < length b)
      by (rewrite Hlen; apply Nat.mod_upper_bound; lia).
    destruct (lookup_lt_is_Some_2 _ _ Hp) as [c Hc].
    unfold cellAt. rewrite Hc. cbn [bindR]. unfold isZero, keyEquals.
    destruct (Z.eqb_spec c 0) as [E0|E0]; cbn [negb andb].
    { exists n. repeat split; try lia; try assumption. exists c. auto. }
    destruct (Z.eqb_spec c k) as [Ek|Ek]; cbn [negb].
    { exists n. repeat split; try lia; try assumption. exists c. auto. }
    rewrite next_mod, Nat.Div0.add_mod_idemp_l. rewrite <- Nat.add_assoc.
    destruct (IH (n + 1)) as (m & Hm & Hfind & Hpass' & Hstop).
    + lia.
    + intros j Hj. destruct (decide (j = n)) as [->|]; [|apply Hpass; lia].
      exists c. auto.
    + exists m. repeat split; try lia; assumption.
Qed.

(** [findCell] from [H] returns the first cell on the way at which the
    probe stops. *)
Lemma findCell_first_stop H :
  H < bufSize g ->
  (exists x, stopsAt b k x) ->
  exists q, findCell b g k H = Normal q /\ q < bufSize g /\ stopsAt b k q /\
    (forall x, x < bufSize g -> onPath H q x -> passes b k x).
Proof using Hlen.
  intros HH Hstop. pose proof (bufSize_pos g) as Hpos.
  destruct (findCell_loop_offsets H HH Hstop (bufSize g) 0 eq_refl) as (m & Hm & Hf & Hp & Hs).
  { intros j Hj. lia. }
  rewrite Nat.add_0_r, (Nat.mod_small H) in Hf by assumption.
  exists ((H + m) mod bufSize g). unfold findCell. split; [assumption|].
  split; [apply Nat.mod_upper_bound; lia|]. split; [assumption|].
  intros x Hx Hpath. apply onPath_offsets in Hpath; try lia.
  destruct Hpath as (j & Hj & ->). now apply Hp.
Qed.

Lemma findCell_unique H q :
  H < bufSize g -> q < bufSize g -> stopsAt b k q ->
  (forall x, x < bufSize g -> onPath H q x -> passes b k x) ->
  findCell b g k H = Normal q.
Proof using Hlen.
  intros HH Hq Hstop Hpass.
  destruct (findCell_first_stop H HH (ex_intro _ q Hstop)) as (q' & Hf & Hq' & Hstop' & Hpass').
  rewrite Hf. f_equal. destruct (decide (q' = q)) as [|Hne]; [assumption|exfalso].
  destruct (onPath_trichotomy (bufSize g) H q' q HH Hq' Hq Hne) as [Hp|Hp].
  - exact (passes_not_stopsAt _ _ _ (Hpass' _ Hq Hp) Hstop).
  - exact (passes_not_stopsAt _ _ _ (Hpass _ Hq' Hp) Hstop').
Qed.

End FindCell.

(** ** Occupied cells *)

(** The number of occupied cells of a buffer. *)
Definition occupied (b : list Key) : nat :=
  length (List.filter (fun c => negb (isZero c)) b).

Lemma occupied_app b1 b2 : occupied (b1 ++ b2) = occupied b1 + occupied b2.
Proof. unfold occupied. now rewrite List.filter_app, length_app. Qed.

Lemma occupied_cons c b :
  occupied (c :: b) = (if isZero c then 0 else 1) + occupied b.
Proof. unfold occupied. cbn [List.filter]. now destruct (isZero c). Qed.

Lemma occupied_replicate_0 n : occupied (replicate n 0%Z) = 0.
Proof. induction n as [|n IH]; [reflexivity|]. cbn [replicate]. now rewrite occupied_cons, IH. Qed.

Lemma occupied_le_length b : occupied b <= length b.
Proof.
  induction b as [|c b IH]; [reflexivity|]. rewrite occupied_cons. cbn [length].
  destruct (isZero c); lia.
Qed.

Lemma occupied_insert b i c c' :
  b !! i = Some c ->
  occupied (<[i := c']> b) + (if isZero c then 0 else 1)
  = occupied b + (if isZero c' then 0 else 1).
Proof.
  intros Hi. pose proof (lookup_lt_Some _ _ _ Hi) as Hlt.
  rewrite insert_take_drop by assumption.
  rewrite <- (take_drop_middle b i c Hi) at 3.
  rewrite !occupied_app, !occupied_cons. lia.
Qed.

Lemma isZero_false c : c <> 0%Z -> isZero c = false.
Proof. intros H. unfold isZero. now destruct (Z.eqb_spec c 0). Qed.

Lemma isZero_true c : isZero c = true -> c = 0%Z.
Proof. unfold isZero. now destruct (Z.eqb_spec c 0). Qed.

(** A buffer whose cells from [n] on are all occupied has that many
    occupied cells at least. *)
Lemma occupied_from b n :
  (forall x, n <= x < length b -> occupiedAt b x) -> length b - n <= occupied b.
Proof.
  revert n. induction b as [|c b IH]; intros n H; [cbn; lia|].
  rewrite occupied_cons. cbn [length].
  destruct n as [|n].
  - destruct (H 0 ltac:(cbn; lia)) as (c' & [= <-] & Hc).
    rewrite isZero_false by assumption.
    specialize (IH 0). rewrite Nat.sub_0_r in IH.
    assert (length b <= occupied b); [|lia].
    apply IH. intros x Hx. destruct (H (S x) ltac:(cbn; lia)) as (c' & Hc' & Hnz).
    now exists c'.
  - assert (length b - n <= occupied b); [|lia].
    apply IH. intros x Hx. destruct (H (S x) ltac:(cbn; lia)) as (c' & Hc' & Hnz).
    now exists c'.
Qed.

(** Looking from [n] on for the first empty cell: it is there, or every
    cell from [n] on is occupied. *)
Lemma first_empty_from b n m :
  n + m <= length b ->
  (forall x, n <= x < n + m -> occupiedAt b x) \/
  (exists e, n <= e < n + m /\ b !! e = Some 0%Z /\ forall x, n <= x < e -> occupiedAt b x).
Proof.
  intros Hm. induction m as [|m IH].
  - left. intros x Hx. lia.
  - destruct IH as [Hall|(e & He & He0 & Hbefore)]; [lia| |].
    + destruct (lookup_lt_is_Some_2 b (n + m) ltac:(lia)) as [c Hc].
      destruct (Z.eq_dec c 0%Z) as [->|Hnz].
      * right. exists (n + m). split; [lia|]. split; [assumption|].
        intros x Hx. apply Hall. lia.
      * left. intros x Hx. destruct (decide (x = n + m)) as [->|]; [now exists c|].
        apply Hall. lia.
    + right. exists e. split; [lia|]. split; assumption.
Qed.

Lemma exists_empty b : occupied b < length b -> exists x, b !! x = Some 0%Z.
Proof.
  intros H. destruct (first_empty_from b 0 (length b) ltac:(lia)) as [Hall|(e & _ & He & _)].
  - pose proof (occupied_from b 0 ltac:(intros x Hx; apply Hall; lia)). lia.
  - eauto.
Qed.

(** Moving the key of cell [i] to the empty cell [p]. *)
Definition moved (b : list Key) (i p : nat) (k : Key) : list Key :=
  <[i := 0%Z]> (<[p := k]> b).

Lemma lookup_moved b i p k x :
  i < length b -> p < length b -> i <> p ->
  moved b i p k !! x
  = if decide (x = i) then Some 0%Z else if decide (x = p) then Some k else b !! x.
Proof.
  intros Hi Hp Hne. unfold moved.
  destruct (decide (x = i)) as [->|Hxi].
  - apply list_lookup_insert_eq. now rewrite length_insert.
  - rewrite list_lookup_insert_ne by congruence.
    destruct (decide (x = p)) as [->|Hxp].
    + now apply list_lookup_insert_eq.
    + now rewrite list_lookup_insert_ne by congruence.
Qed.

Lemma length_moved b i p k : length (moved b i p k) = length b.
Proof. unfold moved. now rewrite !length_insert. Qed.

Lemma occupied_moved b i p k :
  b !! i = Some k -> k <> 0%Z -> b !! p = Some 0%Z -> occupied (moved b i p k) = occupied b.
Proof.
  intros Hi Hk Hp. unfold moved.
  assert (Hne : i <> p) by (intros ->; congruence).
  pose proof (occupied_insert b p 0%Z k Hp) as H1.
  assert (Hi' : <[p := k]> b !! i = Some k) by (now rewrite list_lookup_insert_ne by congruence).
  pose proof (occupied_insert _ i k 0%Z Hi') as H2.
  rewrite (isZero_false k Hk) in *. cbn [isZero Z.eqb] in *. lia.
Qed.

(** ** Probe chains *)

(** No key is stored in two cells. *)
Definition distinctKeys (b : list Key) : Prop :=
  forall p q k, k <> 0%Z -> b !! p = Some k -> b !! q = Some k -> p = q.

(** Two buffers hold the same keys. *)
Definition sameKeys (b b' : list Key) : Prop :=
  occupied b' = occupied b /\
  forall k, k <> 0%Z -> (exists p, b' !! p = Some k) <-> (exists p, b !! p = Some k).

Lemma sameKeys_refl b : sameKeys b b.
Proof. split; [reflexivity|]. tauto. Qed.

Lemma sameKeys_trans b1 b2 b3 : sameKeys b1 b2 -> sameKeys b2 b3 -> sameKeys b1 b3.
Proof.
  intros [H1 K1] [H2 K2]. split; [congruence|].
  intros k Hk. rewrite K2, K1 by assumption. tauto.
Qed.

Lemma occupiedAt_moved b i p k x :
  i < length b -> p < length b -> i <> p -> k <> 0%Z ->
  occupiedAt (moved b i p k) x <-> x <> i /\ (x = p \/ occupiedAt b x).
Proof.
  intros Hi Hp Hne Hk. unfold occupiedAt. rewrite lookup_moved by assumption.
  destruct (decide (x = i)) as [->|Hxi].
  - split; [intros (c & [= <-] & Hc); congruence|tauto].
  - destruct (decide (x = p)) as [->|Hxp].
    + split; [tauto|]. intros _. now exists k.
    + split; [tauto|]. intros [_ [?|?]]; [contradiction|assumption].
Qed.

Lemma distinctKeys_moved b i p k :
  i < length b -> p < length b -> i <> p ->
  b !! i = Some k -> k <> 0%Z -> distinctKeys b -> distinctKeys (moved b i p k).
Proof.
  intros Hi Hp Hne Hik Hk Hd x y k' Hk' Hx Hy.
  rewrite lookup_moved in Hx, Hy by assumption.
  destruct (decide (x = i)); [congruence|]. destruct (decide (y = i)); [congruence|].
  destruct (decide (x = p)) as [->|]; destruct (decide (y = p)) as [->|]; try reflexivity.
  - injection Hx as <-. exfalso. pose proof (Hd _ _ _ Hk Hy Hik). congruence.
  - injection Hy as <-. exfalso. pose proof (Hd _ _ _ Hk Hx Hik). congruence.
  - eauto.
Qed.

Lemma sameKeys_moved b i p k :
  b !! i = Some k -> k <> 0%Z -> b !! p = Some 0%Z -> sameKeys b (moved b i p k).
Proof.
  intros Hik Hk Hp0.
  pose proof (lookup_lt_Some _ _ _ Hik) as Hi. pose proof (lookup_lt_Some _ _ _ Hp0) as Hp.
  assert (Hne : i <> p) by (intros ->; congruence).
  split; [now apply occupied_moved|].
  intros k' Hk'. split.
  - intros [x Hx]. rewrite lookup_moved in Hx by assumption.
    destruct (decide (x = i)); [congruence|].
    destruct (decide (x = p)); [injection Hx as <-|]; eauto.
  - intros [x Hx]. destruct (decide (x = i)) as [->|Hxi].
    + exists p. rewrite lookup_moved by assumption.
      destruct (decide (p = i)); [congruence|]. destruct (decide (p = p)); congruence.
    + exists x. rewrite lookup_moved by assumption.
      destruct (decide (x = i)); [congruence|]. destruct (decide (x = p)); congruence.
Qed.

Section Chains.

Variable hash : Key -> nat.
Variable g : Grower.

(** The cell a probe for [k] starts at. *)
Definition home (k : Key) : nat := place g (hash k).

(** The probe for [k] reaches cell [p]: every cell on its way is occupied. *)
Definition probeReaches (b : list Key) (k : Key) (p : nat) : Prop :=
  forall x, x < bufSize g -> onPath (home k) p x -> occupiedAt b x.

(** Every key is where its probe reaches it. *)
Definition chained (b : list Key) : Prop :=
  forall p k, b !! p = Some k -> k <> 0%Z -> probeReaches b k p.

Lemma home_lt k : home k < bufSize g.
Proof. apply place_lt. Qed.

(** [findCell] finds a key that is in a chained buffer. *)
Lemma findCell_present b k p :
  length b = bufSize g -> distinctKeys b ->
  b !! p = Some k -> k <> 0%Z -> probeReaches b k p ->
  findCell b g k (home k) = Normal p.
Proof.
  intros Hlen Hd Hp Hk Hreach.
  apply findCell_unique; try assumption.
  - apply home_lt.
  - apply lookup_lt_Some in Hp. lia.
  - exists k. auto.
  - intros x Hx Hpath. destruct (Hreach x Hx Hpath) as (c & Hc & Hnz).
    exists c. split; [assumption|]. split; [assumption|].
    intros ->. pose proof (Hd _ _ _ Hk Hc Hp) as ->. exact (onPath_self _ _ Hpath).
Qed.

(** [findCell] for a key that is not in the buffer stops at an empty cell,
    when there is one. *)
Lemma findCell_absent b k :
  length b = bufSize g ->
  (forall p, b !! p <> Some k) -> (exists x, b !! x = Some 0%Z) ->
  exists q, findCell b g k (home k) = Normal q /\ q < bufSize g /\ b !! q = Some 0%Z /\
    probeReaches b k q.
Proof.
  intros Hlen Habs [x0 Hx0].
  destruct (findCell_first_stop b g k Hlen (home k) (home_lt k)) as (q & Hf & Hq & Hs & Hpass).
  { exists x0, 0%Z. auto. }
  exists q. split; [assumption|]. split; [assumption|]. split.
  - destruct Hs as (c & Hc & [->| ->]); [assumption|]. now apply Habs in Hc.
  - intros x Hx Hpath. eapply passes_occupiedAt; eauto.
Qed.

(** What [reinsert] does to the key [k] of cell [i]: it leaves it where the
    probe reaches it, or moves it to the first empty cell of its probe. *)
Lemma reinsert_cases b i k :
  length b = bufSize g -> distinctKeys b -> b !! i = Some k -> k <> 0%Z ->
  (reinsert b g i (hash k) = Normal b /\ probeReaches b k i) \/
  (exists p, p < bufSize g /\ b !! p = Some 0%Z /\
     reinsert b g i (hash k) = Normal (moved b i p k) /\
     (forall x, x < bufSize g -> onPath (home k) p x -> passes b k x)).
Proof.
  intros Hlen Hd Hik Hk.
  assert (Hre : reinsert b g i (hash k)
                = if home k =? i then Normal b
                  else do q <- findCell b g k (home k) ;
                       do c <- cellAt b q ;
                       if negb (isZero c) then Normal b else Normal (moved b i q k)).
  { unfold reinsert, cellAt at 1. fold (home k). now rewrite Hik. }
  rewrite Hre. clear Hre.
  destruct (Nat.eqb_spec (home k) i) as [E|E].
  - left. split; [reflexivity|]. intros x _ Hp. rewrite E in Hp.
    now apply onPath_start in Hp.
  - destruct (findCell_first_stop b g k Hlen (home k) (home_lt k)) as (q & Hf & Hq & Hs & Hpass).
    { exists i, k. auto. }
    rewrite Hf. cbn [bindR]. destruct Hs as (c & Hc & Hstop). unfold cellAt. rewrite Hc.
    cbn [bindR]. destruct Hstop as [->| ->].
    + right. exists q. split; [assumption|]. split; [assumption|].
      split; [reflexivity|assumption].
    + rewrite (isZero_false k Hk). cbn [negb]. left. split; [reflexivity|].
      pose proof (Hd _ _ _ Hk Hc Hik) as ->.
      intros x Hx Hp. eapply passes_occupiedAt; eauto.
Qed.

End Chains.

(** ** The two passes of [resize] *)

(** Decides the position of a cell against a probe path and closes the
    goal by arithmetic. *)
Ltac path_lia :=
  unfold onPath in *;
  repeat match goal with
         | |- context [decide ?P] => destruct (decide P)
         | H : context [decide ?P] |- _ => destruct (decide P)
         end;
  lia.

Section Passes.

Variable hash : Key -> nat.

(** The grower after [increaseSize], and the size [N] of the old buffer. *)
Variable g : Grower.
Variable N : nat.

Local Abbreviation M := (bufSize g).
Local Abbreviation home := (home hash g).
Local Abbreviation probeReaches := (probeReaches hash g).

(** While the first pass stands at cell [i]: below [i] every key is where
    its probe reaches it, and a probe that comes round the end of the
    buffer started in the new part; in the new part, every key is preceded
    by occupied cells back to its home, or back to the start of the new
    part. *)
Record Pass1 (i : nat) (b : list Key) : Prop := {
  p1_length : length b = M;
  p1_distinct : distinctKeys b;
  p1_load : occupied b < M - N;
  p1_low : forall p k, b !! p = Some k -> k <> 0%Z -> p < i ->
             probeReaches b k p /\ (p < home k -> N <= home k);
  p1_high : forall p k, b !! p = Some k -> k <> 0%Z -> N <= p ->
              Nat.max (home k) N <= p /\
              forall x, Nat.max (home k) N <= x < p -> occupiedAt b x
}.

(** A probe that passes the whole new part contradicts the load. *)
Lemma new_part_not_full b :
  length b = M -> occupied b < M - N ->
  ~ (forall x, N <= x < M -> occupiedAt b x).
Proof.
  intros Hlen Hload Hall.
  pose proof (occupied_from b N ltac:(rewrite Hlen; exact Hall)). lia.
Qed.

Lemma pass1_step i b :
  i < N -> N <= M -> Pass1 i b ->
  exists b',
    (do c <- cellAt b i ;
     if negb (isZero c) then reinsert b g i (hash c) else Normal b) = Normal b' /\
    Pass1 (S i) b' /\ sameKeys b b'.
Proof.
  intros Hi HNM [Hlen Hd Hload Hlow Hhigh].
  destruct (lookup_lt_is_Some_2 b i ltac:(lia)) as [k Hik].
  unfold cellAt at 1. rewrite Hik. cbn [bindR].
  destruct (Z.eq_dec k 0%Z) as [->|Hk].
  { exists b. split; [reflexivity|]. split; [|apply sameKeys_refl].
    constructor; try assumption.
    intros p k Hp Hk Hlt. destruct (decide (p = i)) as [->|]; [congruence|].
    apply Hlow; [assumption..|lia]. }
  rewrite (isZero_false k Hk). cbn [negb].
  destruct (reinsert_cases hash g b i k Hlen Hd Hik Hk)
    as [[Hre Hreach]|(q & Hq & Hq0 & Hre & Hpass)]; rewrite Hre.
  - exists b. split; [reflexivity|]. split; [|apply sameKeys_refl].
    constructor; try assumption.
    intros p k' Hp Hk' Hlt. destruct (decide (p = i)) as [->|]; [|apply Hlow; [assumption..|lia]].
    assert (k' = k) as -> by congruence. split; [assumption|].
    intros Hwrap. destruct (Nat.le_gt_cases N (home k)) as [|Hsmall]; [assumption|exfalso].
    apply (new_part_not_full b Hlen Hload). intros x Hx. apply Hreach; [lia|]. path_lia.
  - assert (Hne : i <> q) by (intros ->; congruence).
    assert (Hnoti : forall x, x < M -> onPath (home k) q x -> x <> i).
    { intros x Hx Hp ->. destruct (Hpass i Hx Hp) as (c & Hc & _ & Hck). congruence. }
    assert (Hocc : forall x, x <> i -> occupiedAt b x -> occupiedAt (moved b i q k) x).
    { intros x Hx Ho. apply occupiedAt_moved; try lia; auto. }
    exists (moved b i q k). split; [reflexivity|]. split; [|now apply sameKeys_moved].
    constructor.
    + now rewrite length_moved.
    + apply distinctKeys_moved; try assumption; lia.
    + now rewrite occupied_moved.
    + intros p k' Hp Hk' Hlt. rewrite lookup_moved in Hp by lia.
      destruct (decide (p = i)); [congruence|].
      destruct (decide (p = q)) as [->|Hpq].
      * injection Hp as <-. split.
        -- intros x Hx Hpath. apply Hocc; [now apply Hnoti|].
           eapply passes_occupiedAt; eauto.
        -- intros Hwrap. destruct (Nat.le_gt_cases N (home k)) as [|Hsmall]; [assumption|exfalso].
           apply (new_part_not_full b Hlen Hload). intros x Hx.
           eapply passes_occupiedAt. apply Hpass; [lia|]. path_lia.
      * destruct (Hlow p k' Hp Hk' ltac:(lia)) as [Hreach Hwrap]. split; [|assumption].
        intros x Hx Hpath. apply Hocc; [|now apply Hreach].
        intros ->. path_lia.
    + intros p k' Hp Hk' Hge. rewrite lookup_moved in Hp by lia.
      destruct (decide (p = i)); [congruence|].
      destruct (decide (p = q)) as [->|Hpq].
      * injection Hp as <-.
        assert (Hstraight : home k <= q).
        { destruct (Nat.le_gt_cases (home k) q) as [|Hwrap]; [assumption|exfalso].
          apply (Hnoti i ltac:(lia)); [|reflexivity]. path_lia. }
        split; [lia|]. intros x Hx. apply Hocc; [lia|].
        eapply passes_occupiedAt. apply Hpass; [lia|]. path_lia.
      * destruct (Hhigh p k' Hp Hk' Hge) as [Hmax Hrun]. split; [assumption|].
        intros x Hx. apply Hocc; [lia|]. now apply Hrun.
Qed.

Lemma resize_pass1_invariant n :
  forall i b,
    i + n <= N -> N <= M -> Pass1 i b ->
    exists b', resize_pass1 hash n i b g = Normal b' /\ Pass1 (i + n) b' /\ sameKeys b b'.
Proof.
  induction n as [|n IH]; intros i b Hin HNM HP.
  - exists b. rewrite Nat.add_0_r. split; [reflexivity|]. split; [assumption|apply sameKeys_refl].
  - destruct (pass1_step i b ltac:(lia) HNM HP) as (b1 & Hstep & HP1 & Hk1).
    destruct (IH (S i) b1 ltac:(lia) HNM HP1) as (b2 & Hrest & HP2 & Hk2).
    exists b2. split; [|split].
    + cbn [resize_pass1].
      destruct (cellAt b i) as [c| | |]; cbn [bindR] in *; try discriminate.
      rewrite Hstep. cbn [bindR]. assumption.
    + now replace (i + S n) with (S i + n) by lia.
    + eapply sameKeys_trans; eassumption.
Qed.

(** While the second pass stands at cell [i]: [e] is the empty cell that
    ends the run of occupied cells at the start of the new part; below [i]
    every key is where its probe reaches it, and a probe that comes round
    the end of the buffer started beyond [e]; the cells from [i] to [e] are
    occupied by keys whose home is not after them; beyond [e] every key is
    reached by a probe that started beyond [e]. *)
Record Pass2 (e i : nat) (b : list Key) : Prop := {
  p2_length : length b = M;
  p2_distinct : distinctKeys b;
  p2_end : N <= e < M /\ b !! e = Some 0%Z;
  p2_low : forall p k, b !! p = Some k -> k <> 0%Z -> p < i ->
             probeReaches b k p /\ (p < home k -> e < home k);
  p2_run : forall p, i <= p < e -> exists k, b !! p = Some k /\ k <> 0%Z /\ home k <= p;
  p2_beyond : forall p k, b !! p = Some k -> k <> 0%Z -> e < p ->
                probeReaches b k p /\ e < home k <= p
}.

Lemma pass1_to_pass2 b : N <= M -> Pass1 N b -> exists e, Pass2 e N b.
Proof.
  intros HNM [Hlen Hd Hload Hlow Hhigh].
  destruct (first_empty_from b N (M - N) ltac:(lia)) as [Hall|(e & He & He0 & Hrun)].
  { exfalso. apply (new_part_not_full b Hlen Hload). intros x Hx. apply Hall. lia. }
  assert (Hnote : ~ occupiedAt b e) by (intros (c & Hc & Hnz); congruence).
  exists e. constructor; try assumption.
  - split; [lia|assumption].
  - intros p k Hp Hk Hlt. destruct (Hlow p k Hp Hk Hlt) as [Hreach Hwrap].
    split; [assumption|]. intros Hw. specialize (Hwrap Hw).
    destruct (Nat.lt_ge_cases e (home k)) as [|Hle]; [assumption|exfalso].
    apply Hnote, Hreach; [lia|]. path_lia.
  - intros p Hp. destruct (Hrun p Hp) as (k & Hk & Hnz).
    exists k. split; [assumption|]. split; [assumption|].
    destruct (Hhigh p k Hk Hnz ltac:(lia)). lia.
  - intros p k Hp Hk Hlt. destruct (Hhigh p k Hp Hk ltac:(lia)) as [Hmax Hocc].
    assert (e < home k).
    { destruct (Nat.lt_ge_cases e (home k)) as [|Hle]; [assumption|exfalso].
      apply Hnote, Hocc. lia. }
    split; [|lia]. intros x Hx Hpath. apply Hocc. path_lia.
Qed.

Lemma pass2_step e i b :
  i < e -> Pass2 e i b ->
  exists k b', b !! i = Some k /\ k <> 0%Z /\
    reinsert b g i (hash k) = Normal b' /\ Pass2 e (S i) b' /\ sameKeys b b'.
Proof.
  intros Hi [Hlen Hd [He He0] Hlow Hrun Hbeyond].
  destruct (Hrun i ltac:(lia)) as (k & Hik & Hk & Hhome).
  exists k.
  destruct (reinsert_cases hash g b i k Hlen Hd Hik Hk)
    as [[Hre Hreach]|(q & Hq & Hq0 & Hre & Hpass)]; rewrite Hre.
  - exists b. split; [assumption|]. split; [assumption|]. split; [reflexivity|].
    split; [|apply sameKeys_refl]. constructor; try assumption.
    + split; assumption.
    + intros p k' Hp Hk' Hlt. destruct (decide (p = i)) as [->|]; [|apply Hlow; [assumption..|lia]].
      assert (k' = k) as -> by congruence. split; [assumption|]. lia.
    + intros p Hp. apply Hrun. lia.
  - assert (Hne : i <> q) by (intros ->; congruence).
    assert (Hnoti : forall x, x < M -> onPath (home k) q x -> x <> i).
    { intros x Hx Hp ->. destruct (Hpass i Hx Hp) as (c & Hc & _ & Hck). congruence. }
    assert (Hocc : forall x, x <> i -> occupiedAt b x -> occupiedAt (moved b i q k) x).
    { intros x Hx Ho. apply occupiedAt_moved; try lia; auto. }
    assert (Hq' : home k <= q < i).
    { destruct (decide (home k <= q < i)) as [|Hout]; [assumption|exfalso].
      apply (Hnoti i ltac:(lia)); [|reflexivity]. path_lia. }
    exists (moved b i q k). split; [assumption|]. split; [assumption|]. split; [reflexivity|].
    split; [|now apply sameKeys_moved]. constructor.
    + now rewrite length_moved.
    + apply distinctKeys_moved; try assumption; lia.
    + split; [assumption|]. rewrite lookup_moved by lia.
      destruct (decide (e = i)); [lia|]. destruct (decide (e = q)); [lia|assumption].
    + intros p k' Hp Hk' Hlt. rewrite lookup_moved in Hp by lia.
      destruct (decide (p = i)); [congruence|].
      destruct (decide (p = q)) as [->|Hpq].
      * injection Hp as <-. split; [|lia].
        intros x Hx Hpath. apply Hocc; [now apply Hnoti|].
        eapply passes_occupiedAt; eauto.
      * destruct (Hlow p k' Hp Hk' ltac:(lia)) as [Hreach Hwrap]. split; [|assumption].
        intros x Hx Hpath. apply Hocc; [|now apply Hreach].
        intros ->. destruct (Nat.le_gt_cases (home k') p) as [Hs|Hw]; [path_lia|].
        specialize (Hwrap Hw). path_lia.
    + intros p Hp. rewrite lookup_moved by lia.
      destruct (decide (p = i)); [lia|]. destruct (decide (p = q)); [lia|].
      apply Hrun. lia.
    + intros p k' Hp Hk' Hlt. rewrite lookup_moved in Hp by lia.
      destruct (decide (p = i)); [lia|]. destruct (decide (p = q)); [lia|].
      destruct (Hbeyond p k' Hp Hk' Hlt) as [Hreach Hh]. split; [|assumption].
      intros x Hx Hpath. apply Hocc; [|now apply Hreach]. path_lia.
Qed.

Lemma resize_tail_invariant e n :
  forall i fuel b,
    i + n = e -> n < fuel -> Pass2 e i b ->
    exists b', resize_tail hash fuel i b g = Normal b' /\ Pass2 e e b' /\ sameKeys b b'.
Proof.
  induction n as [|n IH]; intros i fuel b Hin Hfuel HP.
  - assert (i = e) as -> by lia. exists b.
    destruct fuel as [|fuel]; [lia|]. cbn [resize_tail].
    destruct (p2_end _ _ _ HP) as [_ He0]. unfold cellAt. rewrite He0. cbn.
    split; [reflexivity|]. split; [assumption|apply sameKeys_refl].
  - destruct fuel as [|fuel]; [lia|].
    destruct (pass2_step e i b ltac:(lia) HP) as (k & b1 & Hik & Hk & Hre & HP1 & Hk1).
    destruct (IH (S i) fuel b1 ltac:(lia) ltac:(lia) HP1) as (b2 & Hrest & HP2 & Hk2).
    exists b2. split; [|split; [assumption|eapply sameKeys_trans; eassumption]].
    cbn [resize_tail]. unfold cellAt. rewrite Hik. cbn [bindR].
    rewrite (isZero_false k Hk). cbn [negb]. rewrite Hre. cbn [bindR]. assumption.
Qed.

Lemma pass2_chained e b : Pass2 e e b -> chained hash g b.
Proof.
  intros [Hlen Hd [He He0] Hlow Hrun Hbeyond] p k Hp Hk.
  destruct (Nat.lt_trichotomy p e) as [Hlt|[->|Hgt]].
  - now apply Hlow.
  - congruence.
  - now apply Hbeyond.
Qed.

End Passes.

(** ** [resize] *)

Lemma lookup_app_zeros (b : list Key) n p k :
  k <> 0%Z -> (b ++ replicate n 0%Z) !! p = Some k <-> b !! p = Some k.
Proof.
  intros Hk. destruct (decide (p < length b)) as [Hp|Hp].
  - now rewrite lookup_app_l.
  - rewrite lookup_app_r by lia. rewrite (lookup_ge_None_2 b p) by lia.
    split; [|discriminate]. intros H. apply lookup_replicate in H. destruct H. congruence.
Qed.

Section Resize.

Variable hash : Key -> nat.

Lemma resize_rehashes t :
  1 <= size_degree (grower t) ->
  length (buf t) = bufSize (grower t) ->
  distinctKeys (buf t) ->
  occupied (buf t) <= maxFill (grower t) + 1 ->
  exists t', resize hash true t = Normal t' /\
    m_size t' = m_size t /\ has_zero t' = has_zero t /\
    grower t' = increaseSize (grower t) /\
    length (buf t') = bufSize (grower t') /\
    distinctKeys (buf t') /\
    chained hash (grower t') (buf t') /\
    sameKeys (buf t) (buf t').
Proof.
  intros Hdeg Hlen Hd Hload.
  destruct (increaseSize_bufSize (grower t) Hdeg) as (Hdeg' & Hdouble & Hroom & Hfill).
  set (g' := increaseSize (grower t)) in *.
  set (N := bufSize (grower t)) in *.
  set (b1 := buf t ++ replicate (bufSize g' - length (buf t)) 0%Z).
  assert (HNM : N <= bufSize g') by lia.
  assert (Hk1 : sameKeys (buf t) b1).
  { split.
    - unfold b1. rewrite occupied_app, occupied_replicate_0. lia.
    - intros k Hk. unfold b1.
      split; intros [p Hp]; exists p;
        now apply (lookup_app_zeros (buf t) (bufSize g' - length (buf t)) p k Hk). }
  assert (HP0 : Pass1 hash g' N 0 b1).
  { constructor.
    - unfold b1. rewrite length_app, length_replicate. lia.
    - intros p q k Hk Hp Hq.
      apply (lookup_app_zeros (buf t) (bufSize g' - length (buf t)) p k Hk) in Hp.
      apply (lookup_app_zeros (buf t) (bufSize g' - length (buf t)) q k Hk) in Hq. eauto.
    - destruct Hk1 as [-> _]. lia.
    - intros p k _ _ Hp. lia.
    - intros p k Hp Hk Hge.
      apply (lookup_app_zeros (buf t) (bufSize g' - length (buf t)) p k Hk) in Hp.
      apply lookup_lt_Some in Hp. lia. }
  destruct (resize_pass1_invariant hash g' N N 0 b1 ltac:(lia) HNM HP0) as (b2 & Hr1 & HP1 & Hk2).
  destruct (pass1_to_pass2 hash g' N b2 HNM HP1) as (e & HP2).
  destruct (resize_tail_invariant hash g' N e (e - N) N (S (bufSize g')) b2) as (b3 & Hr2 & HP3 & Hk3).
  { destruct (p2_end _ _ _ _ _ _ HP2). lia. }
  { destruct (p2_end _ _ _ _ _ _ HP2). lia. }
  { assumption. }
  exists {| m_size := m_size t; buf := b3; grower := g'; has_zero := has_zero t |}.
  split.
  - unfold resize, Allocator_realloc. fold g' N b1. cbn [bindR].
    rewrite Hr1. cbn [bindR]. rewrite Hr2. reflexivity.
  - cbn [m_size has_zero grower buf]. repeat (split; [reflexivity|]).
    split; [exact (p2_length _ _ _ _ _ _ HP3)|].
    split; [exact (p2_distinct _ _ _ _ _ _ HP3)|].
    split; [exact (pass2_chained _ _ _ _ _ HP3)|].
    eauto using sameKeys_trans.
Qed.

(** ** Consistent tables *)

(** The state every call of [emplace] leaves: the buffer has the size the
    grower says, no key is stored twice, every key is where its probe
    reaches it, at most [maxFill] cells are occupied, and the element count
    is the number of occupied cells plus one for the zero key. *)
Record Consistent (t : HashTable) : Prop := {
  c_degree : 1 <= size_degree (grower t);
  c_length : length (buf t) = bufSize (grower t);
  c_distinct : distinctKeys (buf t);
  c_chained : chained hash (grower t) (buf t);
  c_load : occupied (buf t) <= maxFill (grower t);
  c_count : m_size t = occupied (buf t) + (if has_zero t then 1 else 0)
}.

(** The table holds the key [k]. *)
Definition holds (t : HashTable) (k : Key) : Prop :=
  if decide (k = 0%Z) then has_zero t = true else exists p, buf t !! p = Some k.

Lemma Consistent_new d : 1 <= d -> Consistent (HashTable_new d).
Proof.
  intros Hd. unfold HashTable_new, Allocator_alloc. constructor; cbn [grower buf m_size has_zero].
  - assumption.
  - apply length_replicate.
  - intros p q k Hk Hp _. apply lookup_replicate in Hp. destruct Hp. congruence.
  - intros p k Hp Hk. apply lookup_replicate in Hp. destruct Hp. congruence.
  - rewrite occupied_replicate_0. lia.
  - now rewrite occupied_replicate_0.
Qed.

Lemma holds_new d k : ~ holds (HashTable_new d) k.
Proof.
  unfold holds, HashTable_new, Allocator_alloc. cbn [has_zero buf].
  destruct (decide (k = 0%Z)); [discriminate|].
  intros [p Hp]. apply lookup_replicate in Hp. destruct Hp. congruence.
Qed.

Lemma Consistent_has_empty t : Consistent t -> exists x, buf t !! x = Some 0%Z.
Proof.
  intros [Hdeg Hlen _ _ Hload _]. apply exists_empty.
  pose proof (maxFill_half _ Hdeg). pose proof (bufSize_pos (grower t)). lia.
Qed.

(** [find] on a consistent table: a cell holding the key when the table
    holds it, null otherwise. *)
Lemma find_Consistent t k :
  Consistent t ->
  (holds t k ->
   exists r, find hash t k = Normal r /\ r <> nullptr /\ lookupResultGetKey t r = Some k) /\
  (~ holds t k -> find hash t k = Normal nullptr).
Proof.
  intros HC. pose proof HC as [Hdeg Hlen Hd Hch Hload Hcount].
  unfold holds, find, isZero.
  destruct (decide (k = 0%Z)) as [->|Hk].
  - cbn [Z.eqb]. split.
    + intros ->. exists zeroValue. repeat split. discriminate.
    + intros H. now destruct (has_zero t).
  - destruct (Z.eqb_spec k 0) as [?|_]; [contradiction|]. split.
    + intros [p Hp]. exists (bufCell p).
      fold (home hash (grower t) k).
      rewrite (findCell_present hash (grower t) (buf t) k p Hlen Hd Hp Hk (Hch p k Hp Hk)).
      cbn [bindR]. unfold cellAt. rewrite Hp. cbn [bindR].
      unfold isZero. destruct (Z.eqb_spec k 0) as [?|_]; [contradiction|].
      repeat split; [discriminate|assumption].
    + intros Habs. fold (home hash (grower t) k).
      destruct (findCell_absent hash (grower t) (buf t) k Hlen) as (q & Hf & _ & Hq0 & _).
      { intros p Hp. apply Habs. eauto. }
      { now apply Consistent_has_empty. }
      rewrite Hf. cbn [bindR]. unfold cellAt. rewrite Hq0. reflexivity.
Qed.

End Resize.

(** ** [emplace] *)

Section Emplace.

Variable hash : Key -> nat.

Lemma find_at t k p :
  length (buf t) = bufSize (grower t) -> distinctKeys (buf t) ->
  chained hash (grower t) (buf t) ->
  buf t !! p = Some k -> k <> 0%Z ->
  find hash t k = Normal (bufCell p) /\ lookupResultGetKey t (bufCell p) = Some k.
Proof.
  intros Hlen Hd Hch Hp Hk. split; [|assumption].
  unfold find. rewrite (isZero_false k Hk). fold (home hash (grower t) k).
  rewrite (findCell_present hash (grower t) (buf t) k p Hlen Hd Hp Hk (Hch p k Hp Hk)).
  cbn [bindR]. unfold cellAt. rewrite Hp. cbn [bindR]. now rewrite (isZero_false k Hk).
Qed.

Lemma lookup_insert_cases (b : list Key) q k x :
  q < length b -> <[q := k]> b !! x = if decide (x = q) then Some k else b !! x.
Proof.
  intros Hq. destruct (decide (x = q)) as [->|].
  - now apply list_lookup_insert_eq.
  - now apply list_lookup_insert_ne.
Qed.

(** Storing a new key in the empty cell its probe stops at. *)
Lemma insert_new_key g b k q :
  length b = bufSize g -> distinctKeys b -> chained hash g b ->
  k <> 0%Z -> (forall p, b !! p <> Some k) ->
  b !! q = Some 0%Z -> probeReaches hash g b k q ->
  length (<[q := k]> b) = bufSize g /\
  distinctKeys (<[q := k]> b) /\
  chained hash g (<[q := k]> b) /\
  occupied (<[q := k]> b) = occupied b + 1 /\
  (forall k', k' <> 0%Z ->
     (exists p, <[q := k]> b !! p = Some k') <-> k' = k \/ exists p, b !! p = Some k').
Proof.
  intros Hlen Hd Hch Hk Habs Hq0 Hreach.
  pose proof (lookup_lt_Some _ _ _ Hq0) as Hq.
  assert (Hmono : forall x, occupiedAt b x -> occupiedAt (<[q := k]> b) x).
  { intros x (c & Hc & Hnz). unfold occupiedAt. rewrite lookup_insert_cases by assumption.
    destruct (decide (x = q)); eauto. }
  split; [now rewrite length_insert|]. split; [|split; [|split]].
  - intros x y k' Hk' Hx Hy. rewrite lookup_insert_cases in Hx, Hy by assumption.
    destruct (decide (x = q)) as [->|]; destruct (decide (y = q)) as [->|]; try reflexivity.
    + injection Hx as <-. now apply Habs in Hy.
    + injection Hy as <-. now apply Habs in Hx.
    + eauto.
  - intros p k' Hp Hk' x Hx Hpath. apply Hmono.
    rewrite lookup_insert_cases in Hp by assumption.
    destruct (decide (p = q)) as [->|].
    + injection Hp as <-. now apply Hreach.
    + now apply (Hch p k').
  - pose proof (occupied_insert b q 0%Z k Hq0) as H.
    rewrite (isZero_false k Hk) in H. cbn in H. lia.
  - intros k' Hk'. split.
    + intros [p Hp]. rewrite lookup_insert_cases in Hp by assumption.
      destruct (decide (p = q)); [injection Hp as <-; now left|eauto].
    + intros [->|[p Hp]].
      * exists q. rewrite lookup_insert_cases by assumption. now destruct (decide (q = q)).
      * exists p. rewrite lookup_insert_cases by assumption.
        destruct (decide (p = q)) as [->|]; [congruence|assumption].
Qed.

Lemma holds_nonzero t k : k <> 0%Z -> holds t k <-> exists p, buf t !! p = Some k.
Proof. intros Hk. unfold holds. now destruct (decide (k = 0%Z)). Qed.

Lemma holds_zero t : holds t 0%Z <-> has_zero t = true.
Proof. unfold holds. now destruct (decide (0%Z = 0%Z)). Qed.

(** What one [emplace] does to a consistent table when allocation
    succeeds. *)
Lemma emplace_Consistent t k :
  Consistent hash t ->
  exists r, emplace hash true k t = Returned r /\
    Consistent hash (table r) /\
    (inserted r = true <-> ~ holds t k) /\
    (forall k', holds (table r) k' <-> k' = k \/ holds t k') /\
    size (table r) = size t + (if inserted r then 1 else 0) /\
    find hash (table r) k = Normal (it r) /\
    it r <> nullptr /\
    lookupResultGetKey (table r) (it r) = Some k.
Proof.
  intros HC. pose proof HC as [Hdeg Hlen Hd Hch Hload Hcount].
  unfold emplace, emplaceIfZero.
  destruct (Z.eq_dec k 0%Z) as [->|Hk].
  - cbn [isZero Z.eqb]. destruct (has_zero t) eqn:Hz; cbn [negb]; eexists; (split; [reflexivity|]);
      cbn [table it inserted].
    + split; [assumption|]. split; [rewrite holds_zero; split; [discriminate|congruence]|].
      split; [intros k'; split; [tauto|intros [->|]; [now apply holds_zero|assumption]]|].
      split; [lia|].
      unfold find. cbn [isZero Z.eqb]. rewrite ?Hz. repeat split. discriminate.
    + split.
      { constructor; cbn [grower buf m_size has_zero]; try assumption. lia. }
      split; [rewrite holds_zero; split; [congruence|reflexivity]|].
      split.
      { intros k'. unfold holds. cbn [has_zero buf]. destruct (decide (k' = 0%Z)); [tauto|].
        split; [tauto|]. intros [?|?]; [contradiction|assumption]. }
      split; [unfold size; cbn [m_size]; lia|].
      unfold find. cbn [isZero Z.eqb has_zero]. repeat split. discriminate.
  - rewrite (isZero_false k Hk). unfold emplaceNonZero. fold (home hash (grower t) k).
    destruct (findCell_first_stop (buf t) (grower t) k Hlen (home hash (grower t) k)
                (home_lt hash (grower t) k)) as (q & Hf & Hq & (c & Hqc & Hstop) & Hpass).
    { destruct (Consistent_has_empty hash t HC) as [x Hx]. exists x, 0%Z. auto. }
    rewrite Hf. unfold emplaceNonZeroImpl, cellAt. rewrite Hqc.
    destruct Hstop as [->| ->].
    + (* a new key *)
      cbn [isZero Z.eqb negb]. cbv zeta.
      assert (Habs : forall p, buf t !! p <> Some k).
      { intros p Hp.
        pose proof (findCell_present hash (grower t) (buf t) k p Hlen Hd Hp Hk (Hch p k Hp Hk)) as Hf'.
        rewrite Hf in Hf'. injection Hf' as ->. congruence. }
      assert (Hnot : ~ holds t k) by (rewrite holds_nonzero by assumption; intros [p Hp]; eapply Habs, Hp).
      assert (Hreach : probeReaches hash (grower t) (buf t) k q).
      { intros x Hx Hpath. eapply passes_occupiedAt; eauto. }
      destruct (insert_new_key (grower t) (buf t) k q Hlen Hd Hch Hk Habs Hqc Hreach)
        as (Hlen1 & Hd1 & Hch1 & Hocc1 & Hkeys1).
      set (t1 := {| m_size := S (m_size t); buf := <[q := k]> (buf t);
                    grower := grower t; has_zero := has_zero t |}).
      assert (Hq1 : buf t1 !! q = Some k) by (cbn; apply list_lookup_insert_eq; lia).
      assert (Hholds1 : forall k', holds t1 k' <-> k' = k \/ holds t k').
      { intros k'. unfold holds. cbn [has_zero buf]. destruct (decide (k' = 0%Z)) as [->|Hk'].
        - split; [tauto|]. intros [?|?]; [congruence|assumption].
        - now apply Hkeys1. }
      unfold overflow.
      destruct (Nat.ltb_spec (maxFill (grower t1)) (m_size t1)) as [Hover|Hfits].
      * assert (Hload1 : occupied (buf t1) <= maxFill (grower t1) + 1)
          by (unfold t1; cbn [grower buf]; lia).
        destruct (resize_rehashes hash t1 Hdeg Hlen1 Hd1 Hload1)
          as (t2 & Hres & Hm2 & Hz2 & Hg2 & Hlen2 & Hd2 & Hch2 & Hk2).
        rewrite Hres.
        destruct (proj2 (proj2 Hk2 k Hk) (ex_intro _ q Hq1)) as [p2 Hp2].
        destruct (find_at t2 k p2 Hlen2 Hd2 Hch2 Hp2 Hk) as [Hfind2 Hkey2].
        fold (home hash (grower t2) k).
        rewrite (findCell_present hash (grower t2) (buf t2) k p2 Hlen2 Hd2 Hp2 Hk (Hch2 p2 k Hp2 Hk)).
        eexists. split; [reflexivity|]. cbn [table it inserted].
        destruct (increaseSize_bufSize (grower t) Hdeg) as (Hdeg' & _ & _ & Hfill).
        split.
        { constructor; try assumption.
          - now rewrite Hg2.
          - destruct Hk2 as [-> _]. rewrite Hg2. unfold t1 in *.
            cbn [buf grower] in *. lia.
          - destruct Hk2 as [-> _]. rewrite Hm2, Hz2. unfold t1 in *.
            cbn [m_size buf has_zero] in *. lia. }
        split; [tauto|]. split.
        { intros k'. rewrite <- Hholds1. unfold holds. rewrite Hz2.
          destruct (decide (k' = 0%Z)); [reflexivity|]. now apply Hk2. }
        split; [unfold size; rewrite Hm2; unfold t1; cbn [m_size]; lia|].
        split; [assumption|]. split; [discriminate|assumption].
      * eexists. split; [reflexivity|]. cbn [table it inserted].
        assert (HC1 : Consistent hash t1).
        { unfold t1 in *. constructor; cbn [grower buf m_size has_zero] in *; try assumption; lia. }
        split; [assumption|]. split; [tauto|]. split; [assumption|].
        split; [unfold size, t1; cbn [m_size]; lia|].
        destruct (find_at t1 k q Hlen1 Hd1 Hch1 Hq1 Hk) as [Hfind1 Hkey1].
        split; [assumption|]. split; [discriminate|assumption].
    + (* the key is there *)
      rewrite (isZero_false k Hk). cbn [negb].
      eexists. split; [reflexivity|]. cbn [table it inserted].
      assert (Hholds : holds t k) by (rewrite holds_nonzero by assumption; eauto).
      split; [assumption|]. split; [split; [discriminate|tauto]|].
      split; [intros k'; split; [tauto|intros [->|]; assumption]|].
      split; [lia|].
      destruct (find_at t k q Hlen Hd Hch Hqc Hk) as [Hfind Hkey].
      split; [assumption|]. split; [discriminate|assumption].
Qed.

End Emplace.

(** ** Runs of [emplace] *)

Section Runs.

Variable hash : Key -> nat.

Lemma emplace_all_Consistent keys :
  forall t (l : list Key),
    Consistent hash t -> NoDup l -> (forall k, holds t k <-> k ∈ l) -> size t = length l ->
    exists t' (l' : list Key), emplace_all hash keys t = Some t' /\
      Consistent hash t' /\ NoDup l' /\ (forall k, holds t' k <-> k ∈ l') /\
      size t' = length l' /\ (forall k, k ∈ l' <-> k ∈ keys \/ k ∈ l).
Proof.
  induction keys as [|k keys IH]; intros t l HC Hnd Hholds Hsize.
  - exists t, l. repeat (split; [assumption || reflexivity|]).
    intros k. rewrite elem_of_nil. tauto.
  - destruct (emplace_Consistent hash t k HC) as (r & Hr & HC' & Hins & Hkeys & Hsz & _).
    cbn [emplace_all]. rewrite Hr.
    destruct (inserted r) eqn:Hi.
    + destruct (IH (table r) (k :: l)) as (t' & l' & Hrun & HC'' & Hnd' & Hh' & Hsz' & Hl').
      * assumption.
      * constructor; [|assumption]. rewrite <- Hholds. now apply Hins.
      * intros k'. rewrite Hkeys, Hholds, elem_of_cons. tauto.
      * rewrite Hsz. cbn [length]. lia.
      * exists t', l'. repeat (split; [assumption|]).
        intros k'. rewrite Hl', !elem_of_cons. tauto.
    + assert (Hin : k ∈ l).
      { destruct (decide (k ∈ l)) as [|Hnot]; [assumption|exfalso].
        rewrite <- Hholds in Hnot. apply Hins in Hnot. congruence. }
      destruct (IH (table r) l) as (t' & l' & Hrun & HC'' & Hnd' & Hh' & Hsz' & Hl').
      * assumption.
      * assumption.
      * intros k'. rewrite Hkeys, Hholds. split; [intros [->|]; assumption|tauto].
      * rewrite Hsz. lia.
      * exists t', l'. repeat (split; [assumption|]).
        intros k'. rewrite Hl', elem_of_cons. split; [tauto|]. intros [[->|]|]; tauto.
Qed.

(** The tables reached from an empty one. *)
Lemma emplace_all_new d keys :
  1 <= d ->
  exists t, emplace_all hash keys (HashTable_new d) = Some t /\
    Consistent hash t /\ (forall k, holds t k <-> k ∈ keys) /\
    size t = length (remove_dups keys).
Proof.
  intros Hd.
  destruct (emplace_all_Consistent keys (HashTable_new d) [])
    as (t & l & Hrun & HC & Hnd & Hholds & Hsz & Hl).
  - now apply Consistent_new.
  - constructor.
  - intros k. rewrite elem_of_nil. split; [apply holds_new|tauto].
  - reflexivity.
  - exists t. split; [assumption|]. split; [assumption|]. split.
    + intros k. rewrite Hholds, Hl, elem_of_nil. tauto.
    + rewrite Hsz. apply Permutation_length, NoDup_Permutation.
      * assumption.
      * apply NoDup_remove_dups.
      * intros k. rewrite Hl, elem_of_remove_dups, elem_of_nil. tauto.
Qed.

End Runs.

(** ** The table after any run of [emplace] *)

(** C1 (as the code has it). After any sequence of [emplace] calls on a new
    table, with the zero key among them or not: [size()] is the number of
    distinct keys emplaced; [find] gives a cell holding the key for every
    key emplaced and null for every other; one more [emplace(k)] reports
    [inserted] exactly for a new key, and [find(k)] then gives the cell it
    returned, holding [k]; a [resize] keeps [size()] and finds the same
    keys; the occupied buckets, which are the elements other than the zero
    key, never exceed [maxFill()], half of the bucket count, so that
    [size()] is at most [maxFill() + 1]. *)
Theorem emplace_sequence_keeps_table_consistent
  (hash : Key -> nat) (initial_size_degree : nat) (keys : list Key) :
  1 <= initial_size_degree ->
  exists t, emplace_all hash keys (HashTable_new initial_size_degree) = Some t /\
    size t = length (remove_dups keys) /\
    (forall k, k ∈ keys ->
       exists r, find hash t k = Normal r /\ r <> nullptr /\ lookupResultGetKey t r = Some k) /\
    (forall k, k ∉ keys -> find hash t k = Normal nullptr) /\
    (forall k, exists r, emplace hash true k t = Returned r /\
       (inserted r = true <-> k ∉ keys) /\
       size (table r) = size t + (if inserted r then 1 else 0) /\
       find hash (table r) k = Normal (it r) /\ it r <> nullptr /\
       lookupResultGetKey (table r) (it r) = Some k) /\
    (exists t', resize hash true t = Normal t' /\ size t' = size t /\
       (forall k, k ∈ keys ->
          exists r, find hash t' k = Normal r /\ r <> nullptr /\
                    lookupResultGetKey t' r = Some k) /\
       (forall k, k ∉ keys -> find hash t' k = Normal nullptr)) /\
    length (buf t) = bufSize (grower t) /\
    2 * maxFill (grower t) = bufSize (grower t) /\
    occupied (buf t) <= maxFill (grower t) /\
    size t = occupied (buf t) + (if has_zero t then 1 else 0) /\
    size t <= maxFill (grower t) + 1.
Proof.
  intros Hd.
  destruct (emplace_all_new hash initial_size_degree keys Hd) as (t & Hrun & HC & Hholds & Hsize).
  pose proof HC as [Hdeg Hlen Hdist Hch Hload Hcount].
  exists t. split; [assumption|]. split; [assumption|].
  split; [intros k Hk; apply (find_Consistent hash t k HC); now apply Hholds|].
  split; [intros k Hk; apply (find_Consistent hash t k HC); now rewrite Hholds|].
  split.
  { intros k. destruct (emplace_Consistent hash t k HC) as (r & Hr & _ & Hins & _ & Hsz & Hfind).
    exists r. split; [assumption|]. split; [now rewrite Hins, Hholds|]. split; assumption. }
  split.
  { destruct (resize_rehashes hash t Hdeg Hlen Hdist ltac:(lia))
      as (t' & Hres & Hm & Hz & Hg & Hlen' & Hd' & Hch' & Hk').
    destruct (increaseSize_bufSize (grower t) Hdeg) as (Hdeg' & _ & _ & Hfill).
    assert (HC' : Consistent hash t').
    { constructor; try assumption.
      - now rewrite Hg.
      - destruct Hk' as [-> _]. rewrite Hg. lia.
      - destruct Hk' as [-> _]. now rewrite Hm, Hz. }
    assert (Hholds' : forall k, holds t' k <-> k ∈ keys).
    { intros k. rewrite <- Hholds. unfold holds. rewrite Hz.
      destruct (decide (k = 0%Z)); [reflexivity|]. now apply Hk'. }
    exists t'. split; [assumption|]. split; [exact Hm|].
    split; [intros k Hk; apply (find_Consistent hash t' k HC'); now apply Hholds'|].
    intros k Hk. apply (find_Consistent hash t' k HC'). now rewrite Hholds'. }
  split; [assumption|]. split; [now apply maxFill_half|]. split; [assumption|].
  split; [exact Hcount|]. unfold size. rewrite Hcount. destruct (has_zero t); lia.
Qed.

Lemma emplace_sequence_keeps_table_consistent_witness :
  1 <= 8 /\
  exists t, emplace_all Z.to_nat [5; 0; 261; 5]%Z (HashTable_new 8) = Some t /\
    size t = 3 /\
    find Z.to_nat t 261%Z = Normal (bufCell 6) /\
    find Z.to_nat t 0%Z = Normal zeroValue /\
    find Z.to_nat t 517%Z = Normal nullptr.
Proof.
  split; [lia|].
  destruct (emplace_sequence_keeps_table_consistent Z.to_nat 8 [5; 0; 261; 5]%Z ltac:(lia))
    as (t & Hrun & Hsize & _).
  exists t. split; [exact Hrun|]. split; [exact Hsize|].
  vm_compute in Hrun. injection Hrun as <-. repeat split.
Defined.

(** C1, counterexample: with the default grower (256 buckets, [maxFill()]
    128), after the keys 1 to 128 the zero key is inserted successfully and
    the element count is 129, above [maxFill()]. *)
Lemma zero_key_raises_size_above_maxFill :
  exists t r,
    emplace_all Z.to_nat (map Z.of_nat (seq 1 128)) (HashTable_new 8) = Some t /\
    emplace Z.to_nat true 0%Z t = Returned r /\
    inserted r = true /\
    size (table r) = 129 /\
    maxFill (grower (table r)) = 128 /\
    bufSize (grower (table r)) = 256 /\
    ~ size (table r) <= maxFill (grower (table r)).
Proof.
  eexists. eexists. split; [vm_compute; reflexivity|].
  split; [vm_compute; reflexivity|]. vm_compute. repeat split. lia.
Qed.

(** ** A failed [resize] *)

Lemma findCell_loop_not_Throw fuel b g x p e : findCell_loop fuel b g x p <> Throw e.
Proof.
  revert p. induction fuel as [|fuel IH]; intros p; cbn [findCell_loop]; [discriminate|].
  unfold cellAt. destruct (b !! p) as [c|]; cbn [bindR]; [|discriminate].
  destruct (negb (isZero c) && negb (keyEquals c x)); [apply IH|discriminate].
Qed.

Lemma reinsert_not_Throw b g i h e : reinsert b g i h <> Throw e.
Proof.
  unfold reinsert. destruct (place g h =? i); [discriminate|].
  unfold cellAt at 1. destruct (b !! i) as [x|]; cbn [bindR]; [|discriminate].
  destruct (findCell b g x (place g h)) as [q| | |] eqn:E; cbn [bindR]; try discriminate.
  - unfold cellAt. destruct (b !! q) as [c|]; cbn [bindR]; [|discriminate].
    destruct (negb (isZero c)); discriminate.
  - now apply findCell_loop_not_Throw in E.
Qed.

Lemma resize_pass1_not_Throw hash n i b g e : resize_pass1 hash n i b g <> Throw e.
Proof.
  revert i b. induction n as [|n IH]; intros i b; cbn [resize_pass1]; [discriminate|].
  unfold cellAt. destruct (b !! i) as [c|]; cbn [bindR]; [|discriminate].
  destruct (negb (isZero c)); cbn [bindR]; [|apply IH].
  destruct (reinsert b g i (hash c)) as [b'| | |] eqn:E; cbn [bindR]; try discriminate.
  - apply IH.
  - now apply reinsert_not_Throw in E.
Qed.

Lemma resize_tail_not_Throw hash fuel i b g e : resize_tail hash fuel i b g <> Throw e.
Proof.
  revert i b. induction fuel as [|fuel IH]; intros i b; cbn [resize_tail]; [discriminate|].
  unfold cellAt. destruct (b !! i) as [c|]; cbn [bindR]; [|discriminate].
  destruct (negb (isZero c)); [|discriminate].
  destruct (reinsert b g i (hash c)) as [b'| | |] eqn:E; cbn [bindR]; try discriminate.
  - apply IH.
  - now apply reinsert_not_Throw in E.
Qed.

(** [resize] throws only when the allocation fails. *)
Lemma resize_Throw hash alloc_ok t e :
  resize hash alloc_ok t = Throw e -> alloc_ok = false /\ e = CANNOT_ALLOCATE_MEMORY.
Proof.
  unfold resize, Allocator_realloc. destruct alloc_ok; cbn [bindR].
  - destruct (resize_pass1 _ _ _ _ _) as [b1| | |] eqn:E1; cbn [bindR]; try discriminate.
    + destruct (resize_tail _ _ _ _ _) as [b2| | |] eqn:E2; cbn [bindR]; try discriminate.
      now apply resize_tail_not_Throw in E2.
    + now apply resize_pass1_not_Throw in E1.
  - intros [= <-]. auto.
Qed.

(** When [emplace] throws, it is the resize after the insertion of a new
    non-zero key whose allocation failed, and the table it leaves is the
    table before the call. *)
Lemma emplace_Threw_cases
  (hash : Key -> nat) (alloc_ok : bool) (key : Key) (t : HashTable)
  (e : ErrorCode) (left : HashTable) :
  emplace hash alloc_ok key t = Threw e left ->
  exists place_value,
    let inserted_state :=
      {| m_size := S (m_size t); buf := <[place_value := key]> (buf t);
         grower := grower t; has_zero := has_zero t |} in
    key <> 0%Z /\
    findCell (buf t) (grower t) key (place (grower t) (hash key)) = Normal place_value /\
    buf t !! place_value = Some 0%Z /\
    overflow (grower t) (S (m_size t)) = true /\
    resize hash alloc_ok inserted_state = Throw e /\
    alloc_ok = false /\
    left = rollback inserted_state place_value /\
    left = t.
Proof.
  unfold emplace, emplaceIfZero.
  destruct (isZero key) eqn:Hz.
  { destruct (negb (has_zero t)); discriminate. }
  unfold emplaceNonZero.
  destruct (findCell (buf t) (grower t) key (place (grower t) (hash key)))
    as [place_value| | |] eqn:Hf; try discriminate.
  unfold emplaceNonZeroImpl, cellAt.
  destruct (buf t !! place_value) as [c|] eqn:Hc; [|discriminate].
  destruct (isZero c) eqn:Hcz; cbn [negb]; [|discriminate].
  apply isZero_true in Hcz. subst c. cbv zeta. cbn [grower m_size].
  destruct (overflow (grower t) (S (m_size t))) eqn:Hover; [|discriminate].
  destruct (resize hash alloc_ok _) as [t2|e'| |] eqn:Hres; try discriminate.
  { destruct (findCell (buf t2) _ _ _); discriminate. }
  intros [= <- <-]. exists place_value. cbv zeta.
  destruct (resize_Throw _ _ _ _ Hres) as [Hok _].
  split; [intros ->; discriminate|]. repeat (split; [assumption || reflexivity|]).
  unfold rollback. cbn [m_size buf grower has_zero].
  rewrite list_insert_insert_eq, (list_insert_id _ _ _ Hc).
  destruct t as [m b g z]. cbn [m_size buf grower has_zero]. f_equal. lia.
Qed.

(** The table once [emplaceNonZeroImpl] has constructed the cell at
    [place_value] and counted it, before it looks at the load. *)
Definition stored (t : HashTable) (place_value : nat) (key : Key) : HashTable :=
  {| m_size := S (m_size t); buf := <[place_value := key]> (buf t);
     grower := grower t; has_zero := has_zero t |}.

Lemma rollback_stored t place_value key :
  buf t !! place_value = Some 0%Z -> rollback (stored t place_value key) place_value = t.
Proof.
  intros Hc. unfold rollback, stored. cbn [m_size buf grower has_zero].
  rewrite list_insert_insert_eq, (list_insert_id _ _ _ Hc).
  destruct t as [m b g z]. cbn [m_size buf grower has_zero]. f_equal. lia.
Qed.

(** A probe for a key that stops at an empty cell has passed no empty cell:
    [findEmptyCell] stops there too. *)
Lemma findEmptyCell_loop_findCell fuel b g k p q :
  findCell_loop fuel b g k p = Normal q -> b !! q = Some 0%Z ->
  findEmptyCell_loop fuel b g p = Normal q.
Proof.
  revert p. induction fuel as [|fuel IH]; intros p; cbn [findCell_loop findEmptyCell_loop];
    [discriminate|].
  unfold cellAt. destruct (b !! p) as [c|] eqn:Hc; cbn [bindR]; [|discriminate].
  destruct (isZero c) eqn:Hz; cbn [negb andb].
  - now intros [= <-] _.
  - destruct (keyEquals c k); cbn [negb].
    + intros [= <-] Hq. rewrite Hc in Hq. injection Hq as ->. discriminate.
    + apply IH.
Qed.

(** C6. An [emplace] that has just stored a new non-zero key in the empty
    cell its probe stopped at, found the table too full and called
    [resize], which throws: the handler decrements the count and zeroes the
    cell, which gives back exactly the table before the call, and rethrows,
    so that [emplace] ends with that exception and that table. Whenever
    [emplace] throws, on any table, the table it leaves is the table before
    the call. The handler is what restores it: [insertUniqueNonZero], the
    other caller of [resize], ends with the same exception and the table
    with the cell stored and counted. *)
Theorem failed_resize_restores_table
  (hash : Key -> nat) (alloc_ok : bool) (key : Key) (t : HashTable)
  (place_value : nat) (e : ErrorCode) :
  key <> 0%Z ->
  findCell (buf t) (grower t) key (place (grower t) (hash key)) = Normal place_value ->
  buf t !! place_value = Some 0%Z ->
  overflow (grower t) (S (m_size t)) = true ->
  resize hash alloc_ok (stored t place_value key) = Throw e ->
  emplace hash alloc_ok key t
  = Threw e (rollback (stored t place_value key) place_value) /\
  buf (rollback (stored t place_value key) place_value) !! place_value = Some 0%Z /\
  m_size (rollback (stored t place_value key) place_value)
  = m_size (stored t place_value key) - 1 /\
  rollback (stored t place_value key) place_value = t /\
  stored t place_value key <> t /\
  (forall key' t' e' left',
     emplace hash alloc_ok key' t' = Threw e' left' -> left' = t') /\
  insertUniqueNonZero hash alloc_ok key (hash key) t
  = InsertThrew e (stored t place_value key).
Proof.
  intros Hk Hf Hc Hover Hres.
  pose proof (rollback_stored t place_value key Hc) as Hroll.
  split; [|split; [|split; [|split; [|split; [|split]]]]].
  - unfold emplace, emplaceIfZero. rewrite (isZero_false key Hk).
    unfold emplaceNonZero. rewrite Hf.
    unfold emplaceNonZeroImpl, cellAt. rewrite Hc. cbn [isZero Z.eqb negb].
    cbv zeta. cbn [grower m_size]. rewrite Hover.
    fold (stored t place_value key). now rewrite Hres.
  - rewrite Hroll. exact Hc.
  - reflexivity.
  - exact Hroll.
  - intros E. apply (f_equal m_size) in E. cbn [stored m_size] in E. lia.
  - intros key' t' e' left' H'.
    destruct (emplace_Threw_cases hash alloc_ok key' t' e' left' H') as (p' & H).
    cbv zeta in H. tauto.
  - unfold insertUniqueNonZero, findEmptyCell.
    rewrite (findEmptyCell_loop_findCell _ _ _ _ _ _ Hf Hc).
    cbv zeta. cbn [grower m_size]. rewrite Hover.
    fold (stored t place_value key). now rewrite Hres.
Qed.

Lemma failed_resize_restores_table_witness :
  let t := {| m_size := 1; buf := [0; 1]%Z; grower := {| size_degree := 1 |};
              has_zero := false |} in
  let z := {| m_size := 2; buf := [0; 1]%Z; grower := {| size_degree := 1 |};
              has_zero := true |} in
  (emplace_all Z.to_nat [1%Z] (HashTable_new 1) = Some t /\
   emplace_all Z.to_nat [1; 0]%Z (HashTable_new 1) = Some z) /\
  (resize Z.to_nat false (stored t 0 2%Z) = Throw CANNOT_ALLOCATE_MEMORY /\
   emplace Z.to_nat false 2%Z t = Threw CANNOT_ALLOCATE_MEMORY t /\
   insertUniqueNonZero Z.to_nat false 2%Z 2 t
   = InsertThrew CANNOT_ALLOCATE_MEMORY
       {| m_size := 2; buf := [2; 1]%Z; grower := {| size_degree := 1 |};
          has_zero := false |}) /\
  (resize Z.to_nat false (stored z 0 2%Z) = Throw CANNOT_ALLOCATE_MEMORY /\
   emplace Z.to_nat false 2%Z z = Threw CANNOT_ALLOCATE_MEMORY z /\
   insertUniqueNonZero Z.to_nat false 2%Z 2 z
   = InsertThrew CANNOT_ALLOCATE_MEMORY
       {| m_size := 3; buf := [2; 1]%Z; grower := {| size_degree := 1 |};
          has_zero := true |}).
Proof.
  cbv zeta. split; [split; reflexivity|]. split.
  - split; [reflexivity|].
    destruct (failed_resize_restores_table Z.to_nat false 2%Z
                {| m_size := 1; buf := [0; 1]%Z; grower := {| size_degree := 1 |};
                   has_zero := false |} 0 CANNOT_ALLOCATE_MEMORY
                ltac:(discriminate) eq_refl eq_refl eq_refl eq_refl)
      as (He & _ & _ & Hroll & _ & _ & Hins).
    rewrite Hroll in He. split; [exact He | exact Hins].
  - split; [reflexivity|].
    destruct (failed_resize_restores_table Z.to_nat false 2%Z
                {| m_size := 2; buf := [0; 1]%Z; grower := {| size_degree := 1 |};
                   has_zero := true |} 0 CANNOT_ALLOCATE_MEMORY
                ltac:(discriminate) eq_refl eq_refl eq_refl eq_refl)
      as (He & _ & _ & Hroll & _ & _ & Hins).
    rewrite Hroll in He. split; [exact He | exact Hins].
Defined.

End HashTabFacts.
